(** * xk6-segment: the segmented (striped) index and its shared registry

    A shallow embedding of [pkg/segment]: the [SegmentedIndex] cursor with
    its three navigation methods [Next], [Prev] and [GoTo], and the
    name-keyed cache [sharedSegmentedIndexes] behind
    [XSharedSegmentedIndex].

    Conventions of the embedding:
    - Go's [int64] is a [Z] together with the two's-complement wrap-around
      [Int64.wrap]; [int] is taken to be 64 bits wide (amd64, arm64), so
      the conversions [int(x)] and [int64(len(..))] are the identity.
    - A method on [*SegmentedIndex] is a computation in the monad [M]:
      it receives the receiver's fields and returns the fields after the
      call together with either the returned value or the run-time panic.
      Writes made before a panic stay visible, as they do in Go.
    - The mutexes serialise the methods; a method body is one atomic
      transition of the receiver. *)

From Stdlib Require Import ZArith Lia.
From stdpp Require Import base gmap strings list.

Local Open Scope Z_scope.

(** ** 64-bit signed integers *)

Module Int64.

Definition half_modulus : Z := 9223372036854775808.
Definition modulus : Z := 18446744073709551616.
Definition min_int : Z := -9223372036854775808.
Definition max_int : Z := 9223372036854775807.

(** The representative of [z] modulo [2^64] in [min_int .. max_int]. *)
Definition wrap (z : Z) : Z := (z + half_modulus) mod modulus - half_modulus.

Definition in_range (z : Z) : Prop := min_int <= z <= max_int.

Definition add (a b : Z) : Z := wrap (a + b).
Definition sub (a b : Z) : Z := wrap (a - b).
Definition mul (a b : Z) : Z := wrap (a * b).

End Int64.

(** ** Outcomes of a call *)

Inductive fault : Type :=
| DivideByZero                (* runtime error: integer divide by zero *)
| IndexOutOfRange             (* runtime error: index out of range *)
| NilDereference              (* runtime error: nil pointer dereference *)
| ErrorValue (msg : string).  (* panic(errors.New(msg)) or panic(err) *)

Inductive res (A : Type) : Type :=
| Ret (a : A)
| Panic (f : fault)
| OutOfFuel.

Arguments Ret {A} a.
Arguments Panic {A} f.
Arguments OutOfFuel {A}.

(** Go's [a / b] and [a % b] on [int64]: truncated division, a panic on a
    zero divisor, and wrap-around for [min_int / -1]. *)
Definition quot64 (a b : Z) : res Z :=
  if b =? 0 then Panic DivideByZero else Ret (Int64.wrap (Z.quot a b)).

Definition rem64 (a b : Z) : res Z :=
  if b =? 0 then Panic DivideByZero else Ret (Z.rem a b).

(** [len(l)] as an integer. *)
Definition len (l : list Z) : Z := Z.of_nat (length l).

(** [l[k]] with Go's bounds check. *)
Definition index (l : list Z) (k : Z) : res Z :=
  if k <? 0 then Panic IndexOutOfRange
  else match l !! Z.to_nat k with
       | Some x => Ret x
       | None => Panic IndexOutOfRange
       end.

(** ** The data model *)

(** [SegmentedIndex] without its mutex. *)
Record SegmentedIndex : Type := mkSegmentedIndex {
  start : Z;
  lcd : Z;
  offsets : list Z;
  scaled : Z;
  unscaled : Z
}.

Record SegmentedIndexResult : Type := mkResult {
  Scaled : Z;
  Unscaled : Z
}.

(** [NewSegmentedIndex]: the cursor fields take Go's zero value. *)
Definition NewSegmentedIndex (start lcd : Z) (offsets : list Z) : SegmentedIndex :=
  {| start := start; lcd := lcd; offsets := offsets; scaled := 0; unscaled := 0 |}.

(** ** Methods as state transformers *)

Definition M (A : Type) : Type := SegmentedIndex -> res A * SegmentedIndex.

Definition M_ret {A : Type} (a : A) : M A := fun s => (Ret a, s).

Definition M_bind {A B : Type} (m : M A) (k : A -> M B) : M B :=
  fun s =>
    match m s with
    | (Ret a, s') => k a s'
    | (Panic f, s') => (Panic f, s')
    | (OutOfFuel, s') => (OutOfFuel, s')
    end.

Declare Scope go_scope.
Delimit Scope go_scope with go.
Notation "x <- m ;; k" := (M_bind m (fun x => k))
  (at level 100, m at next level, right associativity) : go_scope.
Notation "m ;;; k" := (M_bind m (fun _ => k))
  (at level 100, right associativity) : go_scope.

(** Reading the receiver, and the two assignments the methods perform. *)
Definition self : M SegmentedIndex := fun s => (Ret s, s).

Definition set_scaled (v : Z) : M unit := fun s =>
  (Ret tt, {| start := start s; lcd := lcd s; offsets := offsets s;
              scaled := v; unscaled := unscaled s |}).

Definition set_unscaled (v : Z) : M unit := fun s =>
  (Ret tt, {| start := start s; lcd := lcd s; offsets := offsets s;
              scaled := scaled s; unscaled := v |}).

(** An expression that may panic, evaluated without touching the receiver. *)
Definition eval {A : Type} (r : res A) : M A := fun s => (r, s).

Definition result : M SegmentedIndexResult := fun s =>
  (Ret {| Scaled := scaled s; Unscaled := unscaled s |}, s).

Local Open Scope go_scope.

(** [Next]: go to the next scaled index and move the unscaled one. *)
Definition Next : M SegmentedIndexResult :=
  s <- self ;;
  (if scaled s =? 0 then
     set_unscaled (Int64.add (unscaled s) (Int64.add (start s) 1))
   else
     k <- eval (rem64 (Int64.sub (scaled s) 1) (len (offsets s))) ;;
     o <- eval (index (offsets s) k) ;;
     set_unscaled (Int64.add (unscaled s) o)) ;;;
  s <- self ;;
  set_scaled (Int64.add (scaled s) 1) ;;;
  result.

(** [Prev]: go to the previous scaled index. *)
Definition Prev : M SegmentedIndexResult :=
  s <- self ;;
  (if scaled s =? 1 then
     set_unscaled (Int64.sub (unscaled s) (Int64.add (start s) 1))
   else
     k <- eval (rem64 (Int64.sub (scaled s) 2) (len (offsets s))) ;;
     o <- eval (index (offsets s) k) ;;
     set_unscaled (Int64.sub (unscaled s) o)) ;;;
  s <- self ;;
  set_scaled (Int64.sub (scaled s) 1) ;;;
  result.

(** The [for] loop of [GoTo]. One unfolding is one test of the condition
    [i < value%s.lcd]; when it holds, the body runs and then the post
    statement [gi, i = gi+1, i+s.offsets[gi]]. The loop returns the final
    [gi]. Every iteration indexes [offsets] at a [gi] one larger than the
    previous one, so [S (length offsets)] unfoldings always suffice
    (lemma [GoTo_loop_total]); [OutOfFuel] marks a loop cut short. *)
Fixpoint GoTo_loop (fuel : nat) (value gi i : Z) : M Z :=
  match fuel with
  | O => eval OutOfFuel
  | S fuel' =>
      s <- self ;;
      m <- eval (rem64 value (lcd s)) ;;
      if i <? m then
        set_scaled (Int64.add (scaled s) 1) ;;;
        o <- eval (index (offsets s) gi) ;;
        set_unscaled (Int64.add (unscaled s) o) ;;;
        o' <- eval (index (offsets s) gi) ;;
        GoTo_loop fuel' value (Int64.add gi 1) (Int64.add i o')
      else M_ret gi
  end.

(** [GoTo]: set the scaled index to its biggest value for which the
    corresponding unscaled index is smaller or equal to [value]. *)
Definition GoTo (value : Z) : M SegmentedIndexResult :=
  s <- self ;;
  wholeCycles <- eval (quot64 value (lcd s)) ;;
  set_scaled (Int64.mul wholeCycles (len (offsets s))) ;;;
  set_unscaled
    (Int64.add (Int64.add (Int64.mul wholeCycles (lcd s)) (start s)) 1) ;;;
  gi <- GoTo_loop (S (length (offsets s))) value 0 (start s) ;;
  s <- self ;;
  (if 0 <? gi then
     o <- eval (index (offsets s) (Int64.sub gi 1)) ;;
     set_unscaled (Int64.sub (unscaled s) o)
   else if 0 <? scaled s then
     o <- eval (index (offsets s) (Int64.sub (len (offsets s)) 1)) ;;
     set_unscaled (Int64.sub (unscaled s) o)
   else M_ret tt) ;;;
  s <- self ;;
  (if scaled s =? 0 then set_unscaled 0 else M_ret tt) ;;;
  result.

Local Close Scope go_scope.

(** Sequences of navigation calls on one instance. *)
Inductive call : Type :=
| CallNext
| CallPrev
| CallGoTo (value : Z).

Definition run_call (c : call) : M SegmentedIndexResult :=
  match c with
  | CallNext => Next
  | CallPrev => Prev
  | CallGoTo value => GoTo value
  end.

(** The receiver after a sequence of calls; a caller that recovers from a
    panic goes on with the fields the panicking call left behind. *)
Definition run_calls (cs : list call) (s : SegmentedIndex) : SegmentedIndex :=
  foldl (fun s c => snd (run_call c s)) s cs.

(** Two receivers built from the same construction parameters. *)
Definition same_params (s s' : SegmentedIndex) : Prop :=
  start s' = start s /\ lcd s' = lcd s /\ offsets s' = offsets s.

(** A computation that writes none of [start], [lcd], [offsets]. *)
Definition keeps_params {A : Type} (m : M A) : Prop :=
  forall s : SegmentedIndex, same_params s (snd (m s)).

(** A cursor whose two fields are [int64] values. *)
Definition cursor_in_range (s : SegmentedIndex) : Prop :=
  Int64.in_range (scaled s) /\ Int64.in_range (unscaled s).

(** A computation that leaves [int64] values in the cursor. *)
Definition keeps_range {A : Type} (m : M A) : Prop :=
  forall s : SegmentedIndex, cursor_in_range s -> cursor_in_range (snd (m s)).

(** The values returned by [n] successive calls of [Next]. *)
Fixpoint Next_results (n : nat) (s : SegmentedIndex) : list (res SegmentedIndexResult) :=
  match n with
  | O => []
  | S n' => let '(r, s') := Next s in r :: Next_results n' s'
  end.

(** ** The striping contract *)

Definition sumZ (l : list Z) : Z := foldr Z.add 0 l.

(** [offsets[j mod len(offsets)]], the cyclic reading of the offsets. *)
Definition offset_at (offsets : list Z) (j : Z) : Z :=
  default 0 (offsets !! Z.to_nat (j mod len offsets)).

(** The position in the original sequence of the [k]-th element of the
    partition: [start + 1 + sum of offsets[j mod n] for j = 0 .. k-2],
    and [0] for [k = 0]. *)
Definition position (start : Z) (offsets : list Z) (k : Z) : Z :=
  if k =? 0 then 0
  else start + 1 + sumZ (offset_at offsets <$> seqZ 0 (k - 1)).

(** The distance from the first element of a cycle to its [g]-th. *)
Definition prefix_sum (offsets : list Z) (g : nat) : Z := sumZ (take g offsets).

(** What the loop of [GoTo] relies on: a non-negative start, positive
    offsets that add up to the cycle length, and a cycle that fits
    [int64] when shifted by the start. *)
Record walkable (start lcd : Z) (offsets : list Z) : Prop := mkWalkable {
  walkable_start : 0 <= start;
  walkable_lcd : 0 < lcd;
  walkable_offsets : Forall (fun o => 0 < o) offsets;
  walkable_sum : sumZ offsets = lcd;
  walkable_fits : start + lcd <= Int64.max_int
}.

(** A striping triple, as [NewSegmentedIndex] expects it from
    [GetStripedOffsets]: on top of [walkable], the [len(offsets)]
    elements of one cycle all lie inside the cycle, the last offset
    leading from the last of them to the first element of the next
    cycle. *)
Record striped (start lcd : Z) (offsets : list Z) : Prop := mkStriped {
  striped_walkable : walkable start lcd offsets;
  striped_nonempty : offsets <> [];
  striped_last : start + prefix_sum offsets (length offsets - 1) < lcd
}.

(** States reachable from a fresh instance by calls that return, each
    within its documented domain: [Prev] only after an element was
    visited, [GoTo] at a non-negative [int64], and [Next] while the
    counter [scaled] can still be incremented. *)
Inductive reachable (start lcd : Z) (offsets : list Z) : SegmentedIndex -> Prop :=
| reachable_New :
    reachable start lcd offsets (NewSegmentedIndex start lcd offsets)
| reachable_Next s r s' :
    reachable start lcd offsets s ->
    scaled s < Int64.max_int ->
    Next s = (Ret r, s') ->
    reachable start lcd offsets s'
| reachable_Prev s r s' :
    reachable start lcd offsets s ->
    1 <= scaled s ->
    Prev s = (Ret r, s') ->
    reachable start lcd offsets s'
| reachable_GoTo s value r s' :
    reachable start lcd offsets s ->
    0 <= value <= Int64.max_int ->
    GoTo value s = (Ret r, s') ->
    reachable start lcd offsets s'.

(** ** The linear scan of the specification *)

Module Spec.

(** The cursor [(scaled, unscaled)] over the integers. *)
Definition cursor : Type := Z * Z.

(** Advance, as the specification words it. *)
Definition Advance (start : Z) (offsets : list Z) (c : cursor) : cursor :=
  let '(scaled, unscaled) := c in
  let unscaled' :=
    if scaled =? 0 then unscaled + (start + 1)
    else unscaled + offset_at offsets (scaled - 1) in
  (scaled + 1, unscaled').

(** Retreat, as the specification words it. *)
Definition Retreat (start : Z) (offsets : list Z) (c : cursor) : cursor :=
  let '(scaled, unscaled) := c in
  let unscaled' :=
    if scaled =? 1 then unscaled - (start + 1)
    else unscaled - offset_at offsets (scaled - 2) in
  (scaled - 1, unscaled').

(** Advance until [unscaled] exceeds [value], then step back once. *)
Fixpoint scan (fuel : nat) (start : Z) (offsets : list Z) (value : Z)
    (c : cursor) : option cursor :=
  match fuel with
  | O => None
  | S fuel' =>
      let c' := Advance start offsets c in
      if value <? snd c' then Some (Retreat start offsets c')
      else scan fuel' start offsets value c'
  end.

(** The scan from the initial state. Every step moves [unscaled] up by
    at least one, so [value + 1] steps are enough. *)
Definition linear_seek (start : Z) (offsets : list Z) (value : Z) : option cursor :=
  scan (S (Z.to_nat value)) start offsets value (0, 0).

End Spec.

(** The same scan with the methods themselves: call [Next] until the
    [Unscaled] it returns exceeds [value], then call [Prev] once. *)
Fixpoint scan_with_Next (fuel : nat) (value : Z) : M SegmentedIndexResult :=
  match fuel with
  | O => eval OutOfFuel
  | S fuel' =>
      M_bind Next (fun r =>
        if value <? Unscaled r then Prev else scan_with_Next fuel' value)
  end.

Definition linear_GoTo (value : Z) : M SegmentedIndexResult :=
  scan_with_Next (S (Z.to_nat value)) value.

(** ** The shared registry *)

(** What the execution context provides. [lib.NewExecutionTuple] followed
    by [GetStripedOffsets] is a pure function of the state's options, so a
    [lib.State] is represented by what the two calls yield for it: either
    the error of [NewExecutionTuple] or the triple. *)
Inductive ExecutionTuple : Type :=
| TupleError (err : string)
| StripedOffsets (start : Z) (offsets : list Z) (lcd : Z).

Record State : Type := mkState { Options : ExecutionTuple }.

(** A [context.Context] (not the nil interface), as far as
    [lib.GetState] reads it: the state pointer it carries, [None] for
    [nil]. *)
Definition Context : Type := option State.

Definition GetState (ctx : Context) : option State := ctx.

(** A [*SegmentedIndex]: the address of an instance in the heap. *)
Definition ptr : Type := nat.

(** [sharedSegmentedIndexes] without its mutex. *)
Record sharedSegmentedIndexes : Type := mkShared {
  data : gmap string ptr
}.

(** The [Module] value with the instances allocated so far. *)
Record process : Type := mkProcess {
  shared : sharedSegmentedIndexes;
  heap : list SegmentedIndex
}.

(** [New]: an empty map. *)
Definition New : process :=
  {| shared := {| data := ∅ |}; heap := [] |}.

(** What a call does besides returning: the allocations it makes. *)
Inductive event : Type :=
| Constructed (name : string) (array : ptr).

Definition outcome (A : Type) : Type := res A * list event * process.

(** The first critical section of [get], under the read lock. *)
Definition get_fast (name : string) (p : process) : option ptr :=
  data (shared p) !! name.

(** The second critical section of [get], under the write lock: look the
    name up again and construct the instance when it still is absent. *)
Definition get_slow (state : option State) (name : string) (p : process) : outcome ptr :=
  match data (shared p) !! name with
  | Some array => (Ret array, [], p)
  | None =>
      match state with
      | None => (Panic NilDereference, [], p)
      | Some st =>
          match Options st with
          | TupleError err => (Panic (ErrorValue err), [], p)
          | StripedOffsets start offsets lcd =>
              let array := length (heap p) in
              (Ret array, [Constructed name array],
               {| shared := {| data := <[name := array]> (data (shared p)) |};
                  heap := heap p ++ [NewSegmentedIndex start lcd offsets] |})
          end
      end
  end.

(** [sharedSegmentedIndexes.get]. *)
Definition get (state : option State) (name : string) (p : process) : outcome ptr :=
  match get_fast name p with
  | Some array => (Ret array, [], p)
  | None => get_slow state name p
  end.

Definition empty_name_error : string :=
  "empty name provided to SharedArray's constructor".

(** [XSharedSegmentedIndex]. *)
Definition XSharedSegmentedIndex (ctx : Context) (name : string) (p : process) : outcome ptr :=
  let state := GetState ctx in
  if (String.length name =? 0)%nat then (Panic (ErrorValue empty_name_error), [], p)
  else get state name p.

(** A navigation call through a pointer. *)
Definition through (array : ptr) (c : call) (p : process) : outcome SegmentedIndexResult :=
  match heap p !! array with
  | None => (Panic NilDereference, [], p)
  | Some s =>
      let '(r, s') := run_call c s in
      (r, [], {| shared := shared p; heap := <[array := s']> (heap p) |})
  end.

(** What can happen to a process: whole calls of [XSharedSegmentedIndex],
    navigation calls on instances, and, for callers that race, the two
    critical sections of [get] taken separately (the second one by a
    caller whose first one found nothing, possibly a while ago). *)
Inductive action : Type :=
| DoShared (ctx : Context) (name : string)
| DoFast (name : string)
| DoSlow (state : option State) (name : string)
| DoCall (array : ptr) (c : call).

(** What an action hands back to its caller. *)
Inductive observation : Type :=
| Got (name : string) (r : res ptr)
| Missed (name : string)
| Navigated (r : res SegmentedIndexResult).

Definition perform (a : action) (p : process) : observation * list event * process :=
  match a with
  | DoShared ctx name =>
      let '(r, es, p') := XSharedSegmentedIndex ctx name p in (Got name r, es, p')
  | DoFast name =>
      match get_fast name p with
      | Some array => (Got name (Ret array), [], p)
      | None => (Missed name, [], p)
      end
  | DoSlow state name =>
      let '(r, es, p') := get_slow state name p in (Got name r, es, p')
  | DoCall array c =>
      let '(r, es, p') := through array c p in (Navigated r, es, p')
  end.

(** A history: the observations and events of a sequence of actions, in
    order, and the process they lead to. *)
Fixpoint history (acts : list action) (p : process)
    : list observation * list event * process :=
  match acts with
  | [] => ([], [], p)
  | a :: acts' =>
      let '(o, es, p') := perform a p in
      let '(os, es', p'') := history acts' p' in
      (o :: os, es ++ es', p'')
  end.

(** The instances constructed for [name] in a list of events. *)
Definition constructed_for (name : string) (es : list event) : list ptr :=
  omap (fun e => match e with
                 | Constructed n array => if decide (n = name) then Some array else None
                 end) es.

(** The pointers returned for [name] in a list of observations. *)
Definition returned_for (name : string) (os : list observation) : list ptr :=
  omap (fun o => match o with
                 | Got n (Ret array) => if decide (n = name) then Some array else None
                 | _ => None
                 end) os.

(** A small history: two callers miss on the fast path, one of them
    constructs the instance; a third caller then asks for the same name;
    afterwards the second caller runs its slow path, somebody advances
    the instance, and a fourth caller asks again. *)
Definition a_state : option State :=
  Some {| Options := StripedOffsets 0 [2; 1] 3 |}.

Definition racing_callers : list action :=
  [DoFast "users"; DoFast "users"; DoSlow a_state "users"].

Definition late_caller : outcome ptr :=
  XSharedSegmentedIndex None "users" (snd (history racing_callers New)).

Definition later_callers : list action :=
  [DoSlow a_state "users"; DoCall 0%nat CallNext; DoShared None "users"].

(** The name and pointer of an observation that is a returned pointer. *)
Definition got_of (o : observation) : option (string * ptr) :=
  match o with
  | Got n (Ret array) => Some (n, array)
  | _ => None
  end.

(** Every pointer the registry holds points into the heap. *)
Definition registry_ok (p : process) : Prop :=
  forall (name : string) (array : ptr),
    data (shared p) !! name = Some array -> (array < length (heap p))%nat.

(** What one step of a process may do to the registry: keep the pointers
    inside the heap, keep every entry, hold under [name] the pointer it
    returned for [name], and construct at most one instance, for a name
    that had none. *)
Definition step_spec (p : process) (got : option (string * ptr))
    (es : list event) (p' : process) : Prop :=
  (registry_ok p -> registry_ok p') /\
  (forall n b, data (shared p) !! n = Some b -> data (shared p') !! n = Some b) /\
  (forall n b, got = Some (n, b) -> data (shared p') !! n = Some b) /\
  (es = [] \/
   exists n b, es = [Constructed n b] /\
               data (shared p) !! n = None /\ data (shared p') !! n = Some b).

(** ** The private constructor, and processes that use both *)

(** [XSegmentedIndex]: a new instance for every call; the registry is
    not consulted. *)
Definition XSegmentedIndex (ctx : Context) (p : process) : outcome ptr :=
  let state := GetState ctx in
  match state with
  | None => (Panic NilDereference, [], p)
  | Some st =>
      match Options st with
      | TupleError err => (Panic (ErrorValue err), [], p)
      | StripedOffsets start offsets lcd =>
          (Ret (length (heap p)), [],
           {| shared := shared p;
              heap := heap p ++ [NewSegmentedIndex start lcd offsets] |})
      end
  end.

(** What a script can ask of the module: anything [action] lists, or a
    private index. *)
Inductive request : Type :=
| Registry (a : action)
| Private (ctx : Context).

Definition serve (q : request) (p : process) : process :=
  match q with
  | Registry a => snd (perform a p)
  | Private ctx => snd (XSegmentedIndex ctx p)
  end.

Definition serve_all (qs : list request) (p : process) : process :=
  foldl (fun p q => serve q p) p qs.

(** What the calls of [Next] on the instance at [array] return, in
    order, while [qs] is served. *)
Fixpoint handed_out (array : ptr) (qs : list request) (p : process)
    : list (res SegmentedIndexResult) :=
  match qs with
  | [] => []
  | q :: qs' =>
      let rest := handed_out array qs' (serve q p) in
      match q with
      | Registry (DoCall b CallNext) =>
          if decide (b = array)
          then fst (fst (through b CallNext p)) :: rest
          else rest
      | _ => rest
      end
  end.

(** No call on the instance at [array] other than [Next]. *)
Definition only_Next_on (array : ptr) (q : request) : Prop :=
  forall c, q = Registry (DoCall array c) -> c = CallNext.

(** No two names share an instance. *)
Definition registry_injective (p : process) : Prop :=
  forall (n1 n2 : string) (array : ptr),
    data (shared p) !! n1 = Some array ->
    data (shared p) !! n2 = Some array ->
    n1 = n2.

(** * Properties *)

(** ** The worked example: [start = 0], [offsets = [2, 1]], [lcd = 3] *)

Example Next_four_times :
  Next_results 4 (NewSegmentedIndex 0 3 [2; 1]) =
  [Ret {| Scaled := 1; Unscaled := 1 |}; Ret {| Scaled := 2; Unscaled := 3 |};
   Ret {| Scaled := 3; Unscaled := 4 |}; Ret {| Scaled := 4; Unscaled := 6 |}].
Proof. reflexivity. Qed.

Example GoTo_4 :
  fst (GoTo 4 (NewSegmentedIndex 0 3 [2; 1])) = Ret {| Scaled := 3; Unscaled := 4 |}.
Proof. reflexivity. Qed.

Example GoTo_5 :
  fst (GoTo 5 (NewSegmentedIndex 0 3 [2; 1])) = Ret {| Scaled := 3; Unscaled := 4 |}.
Proof. reflexivity. Qed.

Example GoTo_on_a_cycle_boundary :
  fst (GoTo 6 (NewSegmentedIndex 0 3 [2; 1])) = Ret {| Scaled := 4; Unscaled := 6 |}.
Proof. reflexivity. Qed.

Example Prev_at_zero_is_garbage :
  fst (Prev (NewSegmentedIndex 0 3 [2; 1])) = Ret {| Scaled := -1; Unscaled := -2 |}.
Proof. reflexivity. Qed.

(** ** Arithmetic modulo [2^64] *)

Module Int64Facts.
Import Int64.

Ltac unwrap :=
  unfold add, sub, mul, wrap, in_range, half_modulus, modulus, min_int, max_int in *.

Ltac wrap_lia := unwrap; Z.div_mod_to_equations; lia.

Lemma wrap_small z : in_range z -> wrap z = z.
Proof. wrap_lia. Qed.

Lemma wrap_in_range z : in_range (wrap z).
Proof. wrap_lia. Qed.

Lemma wrap_wrap z : wrap (wrap z) = wrap z.
Proof. wrap_lia. Qed.

Lemma wrap_add_l a b : wrap (wrap a + b) = wrap (a + b).
Proof. wrap_lia. Qed.

Lemma wrap_add_r a b : wrap (a + wrap b) = wrap (a + b).
Proof. wrap_lia. Qed.

Lemma wrap_sub_l a b : wrap (wrap a - b) = wrap (a - b).
Proof. wrap_lia. Qed.

Lemma wrap_sub_r a b : wrap (a - wrap b) = wrap (a - b).
Proof. wrap_lia. Qed.

Lemma wrap_add_chain a b c d :
  wrap (add (add (wrap a) b) c + d) = wrap (a + b + c + d).
Proof. wrap_lia. Qed.

Lemma add_sub_cancel u d : in_range u -> sub (add u d) d = u.
Proof. wrap_lia. Qed.

Lemma sub_add_cancel u d : in_range u -> add (sub u d) d = u.
Proof. wrap_lia. Qed.

End Int64Facts.

Lemma add_in_range (a b : Z) : Int64.in_range (Int64.add a b).
Proof. apply Int64Facts.wrap_in_range. Qed.

Lemma sub_in_range (a b : Z) : Int64.in_range (Int64.sub a b).
Proof. apply Int64Facts.wrap_in_range. Qed.

Lemma mul_in_range (a b : Z) : Int64.in_range (Int64.mul a b).
Proof. apply Int64Facts.wrap_in_range. Qed.

Lemma zero_in_range : Int64.in_range 0.
Proof. by vm_compute. Qed.

(** ** Reading the offsets cyclically *)

Lemma len_nonneg (l : list Z) : 0 <= len l.
Proof. unfold len. lia. Qed.

Lemma len_pos (l : list Z) : l <> [] -> 0 < len l.
Proof. unfold len. destruct l; [congruence | cbn; lia]. Qed.

Lemma index_lookup (l : list Z) (k : nat) (x : Z) :
  l !! k = Some x -> index l (Z.of_nat k) = Ret x.
Proof.
  intros Hk. unfold index.
  destruct (Z.ltb_spec (Z.of_nat k) 0) as [Hneg | _]; [lia |].
  by rewrite Nat2Z.id, Hk.
Qed.

Lemma index_returns (l : list Z) (k : Z) : index l k <> OutOfFuel.
Proof. unfold index. by repeat case_match. Qed.

Lemma rem64_cyclic (l : list Z) (j : Z) :
  l <> [] -> 0 <= j -> rem64 j (len l) = Ret (j mod len l).
Proof.
  intros Hl Hj. pose proof (len_pos l Hl) as Hlen. unfold rem64.
  destruct (Z.eqb_spec (len l) 0) as [H0 | _]; [lia |].
  by rewrite Z.rem_mod_nonneg by lia.
Qed.

Lemma index_cyclic (l : list Z) (j : Z) :
  l <> [] -> index l (j mod len l) = Ret (offset_at l j).
Proof.
  intros Hl. pose proof (len_pos l Hl) as Hlen.
  pose proof (Z.mod_pos_bound j (len l) Hlen) as Hb.
  unfold index, offset_at.
  destruct (Z.ltb_spec (j mod len l) 0) as [Hneg | _]; [lia |].
  destruct (lookup_lt_is_Some_2 l (Z.to_nat (j mod len l))) as [x Hx].
  - unfold len in *. lia.
  - by rewrite Hx.
Qed.

(** ** [Next] and [Prev], one call at a time *)

Ltac run_M :=
  unfold M_bind, self, set_scaled, set_unscaled, eval, result, M_ret; cbn.

Lemma Next_first (s : SegmentedIndex) :
  scaled s = 0 ->
  Next s =
    (Ret {| Scaled := Int64.add (scaled s) 1;
            Unscaled := Int64.add (unscaled s) (Int64.add (start s) 1) |},
     {| start := start s; lcd := lcd s; offsets := offsets s;
        scaled := Int64.add (scaled s) 1;
        unscaled := Int64.add (unscaled s) (Int64.add (start s) 1) |}).
Proof.
  intros H0. unfold Next. run_M.
  by destruct (Z.eqb_spec (scaled s) 0) as [_ | Hne].
Qed.

Lemma Next_later (s : SegmentedIndex) :
  offsets s <> [] ->
  1 <= scaled s <= Int64.max_int ->
  Next s =
    (Ret {| Scaled := Int64.add (scaled s) 1;
            Unscaled := Int64.add (unscaled s) (offset_at (offsets s) (scaled s - 1)) |},
     {| start := start s; lcd := lcd s; offsets := offsets s;
        scaled := Int64.add (scaled s) 1;
        unscaled := Int64.add (unscaled s) (offset_at (offsets s) (scaled s - 1)) |}).
Proof.
  intros Hl Hs. unfold Next. run_M.
  destruct (Z.eqb_spec (scaled s) 0) as [H0 | _]; [lia |].
  assert (Int64.sub (scaled s) 1 = scaled s - 1) as ->
    by (unfold Int64.sub; apply Int64Facts.wrap_small; Int64Facts.unwrap; lia).
  rewrite rem64_cyclic by (done || lia).
  by rewrite index_cyclic.
Qed.

Lemma Prev_first (s : SegmentedIndex) :
  scaled s = 1 ->
  Prev s =
    (Ret {| Scaled := Int64.sub (scaled s) 1;
            Unscaled := Int64.sub (unscaled s) (Int64.add (start s) 1) |},
     {| start := start s; lcd := lcd s; offsets := offsets s;
        scaled := Int64.sub (scaled s) 1;
        unscaled := Int64.sub (unscaled s) (Int64.add (start s) 1) |}).
Proof.
  intros H1. unfold Prev. run_M.
  by destruct (Z.eqb_spec (scaled s) 1) as [_ | Hne].
Qed.

Lemma Prev_later (s : SegmentedIndex) :
  offsets s <> [] ->
  2 <= scaled s <= Int64.max_int ->
  Prev s =
    (Ret {| Scaled := Int64.sub (scaled s) 1;
            Unscaled := Int64.sub (unscaled s) (offset_at (offsets s) (scaled s - 2)) |},
     {| start := start s; lcd := lcd s; offsets := offsets s;
        scaled := Int64.sub (scaled s) 1;
        unscaled := Int64.sub (unscaled s) (offset_at (offsets s) (scaled s - 2)) |}).
Proof.
  intros Hl Hs. unfold Prev. run_M.
  destruct (Z.eqb_spec (scaled s) 1) as [H1 | _]; [lia |].
  assert (Int64.sub (scaled s) 2 = scaled s - 2) as ->
    by (unfold Int64.sub; apply Int64Facts.wrap_small; Int64Facts.unwrap; lia).
  rewrite rem64_cyclic by (done || lia).
  by rewrite index_cyclic.
Qed.

(** ** The loop of [GoTo] *)

(** One unfolding of the loop, with the receiver's writes spelled out. *)
Lemma GoTo_loop_S (fuel : nat) (value gi i : Z) (s : SegmentedIndex) :
  GoTo_loop (S fuel) value gi i s =
    match rem64 value (lcd s) with
    | Ret m =>
        if i <? m then
          match index (offsets s) gi with
          | Ret o =>
              GoTo_loop fuel value (Int64.add gi 1) (Int64.add i o)
                {| start := start s; lcd := lcd s; offsets := offsets s;
                   scaled := Int64.add (scaled s) 1;
                   unscaled := Int64.add (unscaled s) o |}
          | Panic f =>
              (Panic f,
               {| start := start s; lcd := lcd s; offsets := offsets s;
                  scaled := Int64.add (scaled s) 1; unscaled := unscaled s |})
          | OutOfFuel =>
              (OutOfFuel,
               {| start := start s; lcd := lcd s; offsets := offsets s;
                  scaled := Int64.add (scaled s) 1; unscaled := unscaled s |})
          end
        else (Ret gi, s)
    | Panic f => (Panic f, s)
    | OutOfFuel => (OutOfFuel, s)
    end.
Proof.
  cbn [GoTo_loop]. unfold M_bind, self, set_scaled, set_unscaled, eval, M_ret.
  destruct (rem64 value (lcd s)) as [m | f |]; [| done | done].
  destruct (i <? m); [| done].
  cbn [start lcd offsets scaled unscaled].
  destruct (index (offsets s) gi) as [o | f |]; [| done | done].
  cbn [start lcd offsets scaled unscaled].
  by destruct s.
Qed.

(** The fuel handed to the loop by [GoTo] is never used up: an iteration
    that gets past the bounds check of [offsets[gi]] has [gi] below the
    length, and [gi] goes up by one every time. *)
Lemma GoTo_loop_total (fuel : nat) :
  forall (value gi i : Z) (s : SegmentedIndex),
    (0 < fuel)%nat ->
    Int64.in_range gi ->
    gi < 0 \/ len (offsets s) - gi < Z.of_nat fuel ->
    fst (GoTo_loop fuel value gi i s) <> OutOfFuel.
Proof.
  induction fuel as [| fuel IH]; intros value gi i s Hfuel Hrange Hgi; [lia |].
  rewrite GoTo_loop_S.
  destruct (rem64 value (lcd s)) as [m | f |] eqn:Hrem; [| done |].
  - destruct (i <? m); [| done].
    unfold index.
    destruct (Z.ltb_spec gi 0) as [Hneg | Hpos]; [done |].
    destruct (offsets s !! Z.to_nat gi) as [o |] eqn:Hlook; [| done].
    apply lookup_lt_Some in Hlook.
    assert (len (offsets s) - gi < Z.of_nat (S fuel)) as Hlt by lia.
    unfold len in Hlt.
    apply (IH value (Int64.add gi 1) (Int64.add i o)
             {| start := start s; lcd := lcd s; offsets := offsets s;
                scaled := Int64.add (scaled s) 1;
                unscaled := Int64.add (unscaled s) o |});
      [lia | apply Int64Facts.wrap_in_range |].
    cbn [offsets]. unfold len.
    assert (Int64.add gi 1 < 0 \/ Int64.add gi 1 = gi + 1) as [Hw | Hw]
      by Int64Facts.wrap_lia; [by left | right; lia].
  - unfold rem64 in Hrem. by destruct (lcd s =? 0).
Qed.

Lemma GoTo_total (value : Z) (s : SegmentedIndex) :
  fst (GoTo value s) <> OutOfFuel.
Proof.
  unfold GoTo, M_bind, self, set_scaled, set_unscaled, eval, result, M_ret.
  destruct (quot64 value (lcd s)) as [wholeCycles | f |] eqn:Hq; [| done |].
  - cbn [start lcd offsets scaled unscaled].
    match goal with
    | |- context [GoTo_loop ?fuel ?v ?gi ?i ?s0] =>
        pose proof (GoTo_loop_total fuel v gi i s0) as Hloop;
        destruct (GoTo_loop fuel v gi i s0) as [[gi' | f |] s1]
    end.
    + repeat case_match; simplify_eq/=; try done;
        match goal with H : index _ _ = OutOfFuel |- _ => by apply index_returns in H end.
    + done.
    + exfalso. apply Hloop; [lia | by Int64Facts.unwrap | | done].
      right. cbn [offsets]. unfold len. lia.
  - unfold quot64 in Hq. by destruct (lcd s =? 0).
Qed.

(** ** Sums of offsets *)

Lemma sumZ_app (l k : list Z) : sumZ (l ++ k) = sumZ l + sumZ k.
Proof. unfold sumZ. induction l as [| x l IH]; cbn; lia. Qed.

Lemma sumZ_positive (l : list Z) :
  Forall (fun o => 0 < o) l -> Z.of_nat (length l) <= sumZ l.
Proof. unfold sumZ. induction 1 as [| x l Hx _ IH]; cbn in *; lia. Qed.

Lemma prefix_sum_0 (l : list Z) : prefix_sum l 0 = 0.
Proof. done. Qed.

Lemma prefix_sum_S (l : list Z) (g : nat) (o : Z) :
  l !! g = Some o -> prefix_sum l (S g) = prefix_sum l g + o.
Proof.
  intros Hg. unfold prefix_sum. rewrite (take_S_r l g o Hg), sumZ_app.
  cbn. lia.
Qed.

Lemma prefix_sum_all (l : list Z) : prefix_sum l (length l) = sumZ l.
Proof. unfold prefix_sum. by rewrite take_ge. Qed.

Lemma prefix_sum_split (l : list Z) (g : nat) :
  prefix_sum l g + sumZ (drop g l) = sumZ l.
Proof. unfold prefix_sum. by rewrite <- sumZ_app, take_drop. Qed.

Section Offsets.

Variable offsets : list Z.
Hypothesis Hpositive : Forall (fun o => 0 < o) offsets.

Lemma prefix_sum_lower (g : nat) :
  (g <= length offsets)%nat -> Z.of_nat g <= prefix_sum offsets g.
Proof.
  intros Hg. unfold prefix_sum.
  rewrite <- (length_take_le offsets g) at 1 by done.
  apply sumZ_positive. by apply Forall_take.
Qed.

Lemma prefix_sum_upper (g : nat) :
  (g < length offsets)%nat -> prefix_sum offsets g < sumZ offsets.
Proof.
  intros Hg. pose proof (prefix_sum_split offsets g) as Hsplit.
  pose proof (sumZ_positive (drop g offsets) (Forall_drop _ g _ Hpositive)) as Hd.
  rewrite length_drop in Hd. lia.
Qed.

Lemma prefix_sum_mono (g g' : nat) :
  (g <= g')%nat -> (g' <= length offsets)%nat ->
  prefix_sum offsets g + Z.of_nat (g' - g) <= prefix_sum offsets g'.
Proof.
  intros Hle Hg'. induction Hle as [| g' Hle IH].
  - rewrite Nat.sub_diag. lia.
  - destruct (lookup_lt_is_Some_2 offsets g') as [o Ho]; [lia |].
    rewrite (prefix_sum_S offsets g' o Ho).
    pose proof (proj1 (Forall_lookup _ offsets) Hpositive g' o Ho) as Ho'.
    cbn beta in Ho'. specialize (IH ltac:(lia)). lia.
Qed.

End Offsets.

(** ** The walk through one cycle *)

Section Walk.

Variables (st lc : Z) (offs : list Z) (value : Z).
Hypothesis Hwalk : walkable st lc offs.
Hypothesis Hvalue : 0 <= value.

Lemma rem64_target : rem64 value lc = Ret (value mod lc).
Proof.
  destruct Hwalk. unfold rem64.
  destruct (Z.eqb_spec lc 0) as [H0 | _]; [lia |].
  by rewrite Z.rem_mod_nonneg by lia.
Qed.

(** From the [g]-th element of the cycle on, the loop stops at the
    first element [g2] that is not before the target, having added
    one to [scaled] and an offset to [unscaled] for every element it
    passed. *)
Lemma GoTo_loop_walk (fuel : nat) :
  forall (g : nat) (sc un : Z),
    (g <= length offs)%nat ->
    (length offs - g < fuel)%nat ->
    Int64.in_range sc ->
    Int64.in_range un ->
    (forall g' : nat, (g' < g)%nat -> st + prefix_sum offs g' < value mod lc) ->
    exists g2 : nat,
      (g <= g2 <= length offs)%nat /\
      GoTo_loop fuel value (Z.of_nat g) (st + prefix_sum offs g)
          (mkSegmentedIndex st lc offs sc un) =
        (Ret (Z.of_nat g2),
         mkSegmentedIndex st lc offs
           (Int64.wrap (sc + Z.of_nat (g2 - g)))
           (Int64.wrap (un + (prefix_sum offs g2 - prefix_sum offs g)))) /\
      value mod lc <= st + prefix_sum offs g2 /\
      (forall g' : nat, (g' < g2)%nat -> st + prefix_sum offs g' < value mod lc).
Proof.
  destruct Hwalk as [Hst Hlc Hpos Hsum Hfits].
  pose proof (Z.mod_pos_bound value lc Hlc) as Htarget.
  induction fuel as [| fuel IH]; intros g sc un Hg Hfuel Hsc Hun Hbefore; [lia |].
  rewrite GoTo_loop_S. cbn [start lcd offsets scaled unscaled].
  rewrite rem64_target.
  destruct (Z.ltb_spec (st + prefix_sum offs g) (value mod lc)) as [Hlt | Hge].
  - assert (g < length offs)%nat as Hg'.
    { destruct (decide (g = length offs)) as [-> |]; [| lia].
      rewrite prefix_sum_all in Hlt. lia. }
    destruct (lookup_lt_is_Some_2 offs g Hg') as [o Ho].
    rewrite (index_lookup offs g o Ho).
    pose proof (prefix_sum_S offs g o Ho) as HS.
    pose proof (prefix_sum_mono offs Hpos (S g) (length offs)
                  ltac:(lia) ltac:(lia)) as Hmono.
    rewrite prefix_sum_all in Hmono.
    pose proof (prefix_sum_lower offs Hpos g ltac:(lia)) as Hlow.
    pose proof (proj1 (Forall_lookup _ offs) Hpos g o Ho) as Ho'.
    cbn beta in Ho'.
    assert (Int64.add (Z.of_nat g) 1 = Z.of_nat (S g)) as ->.
    { unfold Int64.add. rewrite Int64Facts.wrap_small; [lia |].
      Int64Facts.unwrap. lia. }
    assert (Int64.add (st + prefix_sum offs g) o = st + prefix_sum offs (S g)) as ->.
    { unfold Int64.add. rewrite Int64Facts.wrap_small; [lia |].
      Int64Facts.unwrap. lia. }
    destruct (IH (S g) (Int64.add sc 1) (Int64.add un o))
      as (g2 & Hg2 & Hrun & Hstop & Hmin).
    + lia.
    + lia.
    + apply Int64Facts.wrap_in_range.
    + apply Int64Facts.wrap_in_range.
    + intros g' Hg'g. destruct (decide (g' = g)) as [-> |]; [done |].
      apply Hbefore. lia.
    + exists g2. split_and!; [lia | lia | | done | done].
      rewrite Hrun. unfold Int64.add. rewrite !Int64Facts.wrap_add_l.
      do 3 f_equal; lia.
  - exists g. split_and!; [lia | lia | | lia | done].
    rewrite Nat.sub_diag, Z.sub_diag, !Z.add_0_r.
    by rewrite !Int64Facts.wrap_small.
Qed.

End Walk.

(** ** Positions *)

Lemma offset_at_cyclic (offs : list Z) (q r : nat) (o : Z) :
  offs !! r = Some o ->
  offset_at offs (Z.of_nat (q * length offs + r)) = o.
Proof.
  intros Hr. pose proof (lookup_lt_Some _ _ _ Hr) as Hlt.
  unfold offset_at, len.
  rewrite Nat2Z.inj_add, Nat2Z.inj_mul, Z.add_comm, Z.mod_add by lia.
  rewrite Z.mod_small by lia.
  by rewrite Nat2Z.id, Hr.
Qed.

Lemma walked_S (offs : list Z) (j : nat) :
  sumZ (offset_at offs <$> seqZ 0 (Z.of_nat (S j))) =
  sumZ (offset_at offs <$> seqZ 0 (Z.of_nat j)) + offset_at offs (Z.of_nat j).
Proof.
  rewrite seqZ_S, fmap_app, sumZ_app, Z.add_0_l.
  change (sumZ (offset_at offs <$> [Z.of_nat j]))
    with (offset_at offs (Z.of_nat j) + 0).
  lia.
Qed.

(** The offsets passed after [q] whole cycles and [r] more elements. *)
Lemma walked_cyclic (offs : list Z) (j : nat) :
  forall q r : nat,
    j = (q * length offs + r)%nat ->
    (r < length offs)%nat ->
    sumZ (offset_at offs <$> seqZ 0 (Z.of_nat j)) =
    Z.of_nat q * sumZ offs + prefix_sum offs r.
Proof.
  induction j as [| j IH]; intros q r Hj Hr.
  - assert (q = 0%nat) as -> by (destruct q; [done | lia]).
    assert (r = 0%nat) as -> by lia.
    rewrite seqZ_nil, prefix_sum_0 by lia. cbn. lia.
  - rewrite walked_S.
    destruct r as [| r].
    + destruct q as [| q]; [lia |].
      destruct (lookup_lt_is_Some_2 offs (length offs - 1)) as [o Ho]; [lia |].
      rewrite (IH q (length offs - 1)%nat) by lia.
      assert (j = q * length offs + (length offs - 1))%nat as -> by lia.
      rewrite (offset_at_cyclic offs q _ o Ho).
      pose proof (prefix_sum_S offs _ o Ho) as HS.
      replace (S (length offs - 1)) with (length offs) in HS by lia.
      rewrite prefix_sum_all in HS. rewrite prefix_sum_0. lia.
    + destruct (lookup_lt_is_Some_2 offs r) as [o Ho]; [lia |].
      rewrite (IH q r) by lia.
      assert (j = q * length offs + r)%nat as -> by lia.
      rewrite (offset_at_cyclic offs q r o Ho).
      rewrite (prefix_sum_S offs r o Ho). lia.
Qed.

Lemma position_0 (st : Z) (offs : list Z) : position st offs 0 = 0.
Proof. done. Qed.

Lemma position_cyclic (st : Z) (offs : list Z) (q r : nat) :
  (r < length offs)%nat ->
  position st offs (Z.of_nat (q * length offs + r) + 1) =
  st + 1 + Z.of_nat q * sumZ offs + prefix_sum offs r.
Proof.
  intros Hr. unfold position.
  destruct (Z.eqb_spec (Z.of_nat (q * length offs + r) + 1) 0) as [H0 | _]; [lia |].
  replace (Z.of_nat (q * length offs + r) + 1 - 1)
    with (Z.of_nat (q * length offs + r)) by lia.
  rewrite (walked_cyclic offs _ q r) by done. lia.
Qed.

Lemma position_succ (st : Z) (offs : list Z) (k : Z) :
  0 <= k ->
  position st offs (k + 1) =
  position st offs k + (if k =? 0 then st + 1 else offset_at offs (k - 1)).
Proof.
  intros Hk. unfold position.
  destruct (Z.eqb_spec (k + 1) 0) as [H0 | _]; [lia |].
  destruct (Z.eqb_spec k 0) as [-> | Hne].
  { rewrite seqZ_nil by lia.
    change (sumZ (offset_at offs <$> [])) with 0. lia. }
  replace (k + 1 - 1) with (Z.of_nat (S (Z.to_nat (k - 1)))) by lia.
  rewrite walked_S. rewrite Z2Nat.id by lia. lia.
Qed.

Lemma offset_at_positive (offs : list Z) (j : Z) :
  offs <> [] -> Forall (fun o => 0 < o) offs -> 0 < offset_at offs j.
Proof.
  intros Hne Hpos. pose proof (len_pos offs Hne) as Hlen.
  pose proof (Z.mod_pos_bound j (len offs) Hlen) as Hb.
  unfold offset_at.
  destruct (lookup_lt_is_Some_2 offs (Z.to_nat (j mod len offs))) as [o Ho].
  - unfold len in *. lia.
  - rewrite Ho. cbn. by apply (proj1 (Forall_lookup _ offs) Hpos _ _ Ho).
Qed.

Lemma position_increasing (st : Z) (offs : list Z) (k : Z) :
  0 <= st -> offs <> [] -> Forall (fun o => 0 < o) offs ->
  0 <= k -> position st offs k < position st offs (k + 1).
Proof.
  intros Hst Hne Hpos Hk. rewrite position_succ by done.
  destruct (Z.eqb_spec k 0); [lia |].
  pose proof (offset_at_positive offs (k - 1) Hne Hpos). lia.
Qed.

Lemma position_monotone (st : Z) (offs : list Z) (k k' : Z) :
  0 <= st -> offs <> [] -> Forall (fun o => 0 < o) offs ->
  0 <= k -> k <= k' ->
  position st offs k + (k' - k) <= position st offs k'.
Proof.
  intros Hst Hne Hpos Hk Hle.
  replace k' with (k + Z.of_nat (Z.to_nat (k' - k))) by lia.
  generalize (Z.to_nat (k' - k)) as d. clear k' Hle.
  induction d as [| d IH].
  - replace (k + Z.of_nat 0) with k by lia. lia.
  - replace (k + Z.of_nat (S d)) with (k + Z.of_nat d + 1) by lia.
    pose proof (position_increasing st offs (k + Z.of_nat d) Hst Hne Hpos
                  ltac:(lia)). lia.
Qed.

Section Seek.

Variables (st lc : Z) (offs : list Z) (value : Z).
Hypothesis Hstriped : striped st lc offs.
Hypothesis Hvalue : 0 <= value <= Int64.max_int.

Lemma GoTo_seek (sc un : Z) :
  exists k : Z,
    0 <= k /\
    GoTo value (mkSegmentedIndex st lc offs sc un) =
      (Ret {| Scaled := k; Unscaled := position st offs k |},
       mkSegmentedIndex st lc offs k (position st offs k)) /\
    position st offs k <= value < position st offs (k + 1).
Proof.
  destruct Hstriped as [Hwalk Hne Hlast].
  pose proof Hwalk as [Hst Hlc Hpos Hsum Hfits].
  pose proof (Z.mod_pos_bound value lc Hlc) as Hm.
  pose proof (Z.div_mod value lc ltac:(lia)) as Hdiv.
  pose proof (Z.div_pos value lc ltac:(lia) Hlc) as Hq.
  pose proof (sumZ_positive offs Hpos) as Hn.
  pose proof (len_pos offs Hne) as Hn'. unfold len in Hn'.
  set (q := value / lc) in *. set (m := value mod lc) in *.
  assert (q * Z.of_nat (length offs) <= q * lc) as Hqn
    by (apply Z.mul_le_mono_nonneg_l; lia).
  unfold GoTo, M_bind, self, set_scaled, set_unscaled, eval, result, M_ret.
  cbn [start lcd offsets scaled unscaled].
  assert (quot64 value lc = Ret q) as ->.
  { unfold quot64. destruct (Z.eqb_spec lc 0) as [H0 | _]; [lia |].
    rewrite Z.quot_div_nonneg by lia. fold q.
    rewrite Int64Facts.wrap_small; [done |]. Int64Facts.unwrap. nia. }
  cbn [start lcd offsets scaled unscaled].
  destruct (GoTo_loop_walk st lc offs value Hwalk ltac:(lia)
              (S (length offs)) 0
              (Int64.mul q (len offs))
              (Int64.add (Int64.add (Int64.mul q lc) st) 1))
    as (g2 & Hg2 & Hrun & Hstop & Hmin).
  { lia. } { lia. }
  { apply Int64Facts.wrap_in_range. } { apply Int64Facts.wrap_in_range. }
  { intros g' Hg'. lia. }
  rewrite prefix_sum_0, Z.add_0_r, Z.sub_0_r, Nat.sub_0_r in Hrun.
  change (Z.of_nat 0) with 0 in Hrun. rewrite Hrun. clear Hrun.
  fold m in Hstop, Hmin.
  assert (Z.of_nat g2 <= m) as Hg2m.
  { destruct g2 as [| g]; [lia |].
    pose proof (Hmin g ltac:(lia)).
    pose proof (prefix_sum_lower offs Hpos g ltac:(lia)). lia. }
  assert (Int64.wrap (Int64.mul q (len offs) + Z.of_nat g2) =
          q * Z.of_nat (length offs) + Z.of_nat g2) as ->.
  { unfold Int64.mul, len. rewrite Int64Facts.wrap_add_l.
    apply Int64Facts.wrap_small. Int64Facts.unwrap. nia. }
  assert (Int64.wrap (Int64.add (Int64.add (Int64.mul q lc) st) 1 +
                      prefix_sum offs g2) =
          Int64.wrap (q * lc + st + 1 + prefix_sum offs g2)) as ->.
  { unfold Int64.mul. apply Int64Facts.wrap_add_chain. }
  assert (Z.of_nat (Z.to_nat q) = q) as Hqnat by lia.
  destruct g2 as [| g].
  - (* the walk took no step *)
    change (0 <? Z.of_nat 0) with false.
    cbn [start lcd offsets scaled unscaled].
    rewrite prefix_sum_0 in Hstop.
    rewrite prefix_sum_0, !Z.add_0_r.
    destruct (Z.ltb_spec 0 (q * Z.of_nat (length offs))) as [Hsome | Hnone].
    + (* whole cycles only *)
      destruct (lookup_lt_is_Some_2 offs (length offs - 1)) as [o Ho]; [lia |].
      assert (Int64.sub (len offs) 1 = Z.of_nat (length offs - 1)) as ->.
      { unfold Int64.sub, len. rewrite Int64Facts.wrap_small; [lia |].
        Int64Facts.unwrap. lia. }
      rewrite (index_lookup offs _ o Ho).
      cbn [start lcd offsets scaled unscaled].
      destruct (Z.eqb_spec (q * Z.of_nat (length offs)) 0) as [H0 | _]; [lia |].
      cbn [start lcd offsets scaled unscaled].
      pose proof (prefix_sum_S offs _ o Ho) as HS.
      replace (S (length offs - 1)) with (length offs) in HS by lia.
      rewrite prefix_sum_all in HS.
      pose proof (prefix_sum_lower offs Hpos (length offs - 1) ltac:(lia))
        as Hlow.
      assert (1 <= q) as Hq1 by nia.
      pose proof (position_cyclic st offs (Z.to_nat (q - 1)) (length offs - 1)
                    ltac:(lia)) as Hpos_k.
      replace (Z.of_nat (Z.to_nat (q - 1) * length offs + (length offs - 1)) + 1)
        with (q * Z.of_nat (length offs)) in Hpos_k by nia.
      pose proof (position_cyclic st offs (Z.to_nat q) 0 ltac:(lia)) as Hpos_k1.
      replace (Z.of_nat (Z.to_nat q * length offs + 0) + 1)
        with (q * Z.of_nat (length offs) + 1) in Hpos_k1 by nia.
      rewrite prefix_sum_0 in Hpos_k1.
      rewrite Z2Nat.id, Hsum in Hpos_k by lia.
      rewrite Z2Nat.id, Hsum in Hpos_k1 by lia.
      assert (Int64.sub (Int64.wrap (q * lc + st + 1)) o =
              position st offs (q * Z.of_nat (length offs))) as ->.
      { rewrite Hpos_k. unfold Int64.sub. rewrite Int64Facts.wrap_sub_l.
        rewrite Int64Facts.wrap_small; [lia |]. Int64Facts.unwrap. lia. }
      exists (q * Z.of_nat (length offs)).
      split_and!; [lia | done | lia | lia].
    + (* nothing at or before [value] *)
      assert (q * Z.of_nat (length offs) = 0) as -> by lia.
      assert (q = 0) as Hq0 by nia.
      cbn [start lcd offsets scaled unscaled].
      change (0 =? 0) with true.
      cbn [start lcd offsets scaled unscaled].
      exists 0. rewrite position_0.
      pose proof (position_cyclic st offs 0 0 ltac:(lia)) as Hpos_k1.
      change (Z.of_nat (0 * length offs + 0) + 1) with (0 + 1) in Hpos_k1.
      rewrite prefix_sum_0 in Hpos_k1.
      split_and!; [lia | done | lia | lia].
  - (* the walk passed [S g] elements *)
    destruct (Z.ltb_spec 0 (Z.of_nat (S g))) as [_ | Hneg]; [| lia].
    destruct (lookup_lt_is_Some_2 offs g) as [o Ho]; [lia |].
    assert (Int64.sub (Z.of_nat (S g)) 1 = Z.of_nat g) as ->.
    { unfold Int64.sub. rewrite Int64Facts.wrap_small; [lia |].
      Int64Facts.unwrap. lia. }
    cbn [start lcd offsets scaled unscaled].
    rewrite (index_lookup offs g o Ho).
    cbn [start lcd offsets scaled unscaled].
    destruct (Z.eqb_spec (q * Z.of_nat (length offs) + Z.of_nat (S g)) 0)
      as [H0 | _]; [lia |].
    cbn [start lcd offsets scaled unscaled].
    pose proof (prefix_sum_S offs g o Ho) as HS.
    pose proof (Hmin g ltac:(lia)) as Hbefore.
    pose proof (prefix_sum_lower offs Hpos g ltac:(lia)) as Hlow.
    pose proof (position_cyclic st offs (Z.to_nat q) g ltac:(lia)) as Hpos_k.
    replace (Z.of_nat (Z.to_nat q * length offs + g) + 1)
      with (q * Z.of_nat (length offs) + Z.of_nat (S g)) in Hpos_k by nia.
    rewrite Z2Nat.id, Hsum in Hpos_k by lia.
    assert (Int64.sub (Int64.wrap (q * lc + st + 1 + prefix_sum offs (S g))) o =
            position st offs (q * Z.of_nat (length offs) + Z.of_nat (S g))) as ->.
    { rewrite Hpos_k. unfold Int64.sub. rewrite Int64Facts.wrap_sub_l.
      rewrite Int64Facts.wrap_small; [lia |]. Int64Facts.unwrap. lia. }
    exists (q * Z.of_nat (length offs) + Z.of_nat (S g)).
    split_and!; [lia | done | lia |].
    destruct (decide (S g = length offs)) as [Hall | Hmore].
    + pose proof (position_cyclic st offs (Z.to_nat (q + 1)) 0 ltac:(lia))
        as Hpos_k1.
      replace (Z.of_nat (Z.to_nat (q + 1) * length offs + 0) + 1)
        with (q * Z.of_nat (length offs) + Z.of_nat (S g) + 1)
        in Hpos_k1 by nia.
      rewrite Z2Nat.id, Hsum, prefix_sum_0 in Hpos_k1 by lia. lia.
    + pose proof (position_cyclic st offs (Z.to_nat q) (S g) ltac:(lia))
        as Hpos_k1.
      replace (Z.of_nat (Z.to_nat q * length offs + S g) + 1)
        with (q * Z.of_nat (length offs) + Z.of_nat (S g) + 1)
        in Hpos_k1 by nia.
      rewrite Z2Nat.id, Hsum in Hpos_k1 by lia. lia.
Qed.

End Seek.

(** ** The linear scan *)

Section Scan.

Variables (st : Z) (offs : list Z) (value : Z).
Hypothesis Hst : 0 <= st.
Hypothesis Hne : offs <> [].
Hypothesis Hpos : Forall (fun o => 0 < o) offs.

Lemma Advance_position (k : Z) :
  0 <= k ->
  Spec.Advance st offs (k, position st offs k) = (k + 1, position st offs (k + 1)).
Proof.
  intros Hk. unfold Spec.Advance. rewrite (position_succ st offs k Hk).
  by destruct (k =? 0).
Qed.

Lemma Retreat_position (k : Z) :
  0 <= k ->
  Spec.Retreat st offs (k + 1, position st offs (k + 1)) = (k, position st offs k).
Proof.
  intros Hk. unfold Spec.Retreat. rewrite (position_succ st offs k Hk).
  replace (k + 1 - 1) with k by lia. replace (k + 1 - 2) with (k - 1) by lia.
  destruct (Z.eqb_spec (k + 1) 1), (Z.eqb_spec k 0); try lia; f_equal; lia.
Qed.

(** At most one [k] has [position k <= value < position (k + 1)]. *)
Lemma position_bracket_largest (k k' : Z) :
  0 <= k -> value < position st offs (k + 1) ->
  0 <= k' -> position st offs k' <= value ->
  k' <= k.
Proof.
  intros Hk Hnext Hk' Hle.
  destruct (Z.le_gt_cases k' k) as [| Hgt]; [done |].
  pose proof (position_monotone st offs (k + 1) k' Hst Hne Hpos
                ltac:(lia) ltac:(lia)). lia.
Qed.

Lemma scan_finds (fuel : nat) :
  forall k K : Z,
    0 <= k <= K ->
    position st offs K <= value < position st offs (K + 1) ->
    value - position st offs k < Z.of_nat fuel ->
    Spec.scan fuel st offs value (k, position st offs k) =
    Some (K, position st offs K).
Proof.
  induction fuel as [| fuel IH]; intros k K Hk HK Hfuel.
  - pose proof (position_monotone st offs k K Hst Hne Hpos
                  ltac:(lia) ltac:(lia)). lia.
  - cbn [Spec.scan]. rewrite Advance_position by lia. cbn [snd].
    pose proof (position_increasing st offs k Hst Hne Hpos ltac:(lia)) as Hinc.
    destruct (Z.ltb_spec value (position st offs (k + 1))) as [Hover | Hgo].
    + rewrite Retreat_position by lia.
      assert (K <= k) as HKk
        by (apply (position_bracket_largest k K); lia).
      by replace K with k by lia.
    + assert (k + 1 <= K) as HkK.
      { apply (position_bracket_largest K (k + 1)); lia. }
      apply IH; lia.
Qed.

Lemma linear_seek_finds (K : Z) :
  0 <= K ->
  position st offs K <= value < position st offs (K + 1) ->
  Spec.linear_seek st offs value = Some (K, position st offs K).
Proof.
  intros HK Hbracket. unfold Spec.linear_seek.
  change (0, 0) with (0, position st offs 0).
  apply scan_finds; [lia | done |].
  pose proof (position_monotone st offs 0 K Hst Hne Hpos ltac:(lia) ltac:(lia)).
  rewrite position_0 in *. lia.
Qed.

End Scan.

(** ** The linear scan with [Next] and [Prev] *)

Lemma sumZ_bounds_elements (l : list Z) (i : nat) (x : Z) :
  Forall (fun o => 0 < o) l -> l !! i = Some x -> x <= sumZ l.
Proof.
  intros Hpos. revert i. induction Hpos as [| y l Hy Hl IH]; intros i Hi; [done |].
  pose proof (sumZ_positive l Hl) as Hsum.
  unfold sumZ in *. cbn [foldr]. destruct i as [| i]; cbn in Hi.
  - injection Hi as ->. lia.
  - specialize (IH i Hi). lia.
Qed.

Lemma offset_at_upper (offs : list Z) (j : Z) :
  offs <> [] -> Forall (fun o => 0 < o) offs -> offset_at offs j <= sumZ offs.
Proof.
  intros Hne Hpos. pose proof (len_pos offs Hne) as Hlen.
  pose proof (Z.mod_pos_bound j (len offs) Hlen) as Hb.
  unfold offset_at.
  destruct (lookup_lt_is_Some_2 offs (Z.to_nat (j mod len offs))) as [o Ho].
  - unfold len in *. lia.
  - rewrite Ho. cbn. by apply (sumZ_bounds_elements offs _ o Hpos Ho).
Qed.

Section ScanWithNext.

Variables (st lc : Z) (offs : list Z) (value : Z).
Hypothesis Hstriped : striped st lc offs.
Hypothesis Hroom : value + lc <= Int64.max_int.

Lemma scan_with_Next_finds (fuel : nat) :
  forall k K : Z,
    0 <= k <= K ->
    position st offs K <= value < position st offs (K + 1) ->
    value - position st offs k < Z.of_nat fuel ->
    scan_with_Next fuel value (mkSegmentedIndex st lc offs k (position st offs k)) =
      (Ret {| Scaled := K; Unscaled := position st offs K |},
       mkSegmentedIndex st lc offs K (position st offs K)).
Proof.
  destruct Hstriped as [[Hst Hlc Hpos Hsum Hfits] Hne Hlast].
  pose proof (prefix_sum_lower offs Hpos (length offs - 1) ltac:(lia)) as Hlow.
  induction fuel as [| fuel IH]; intros k K Hk HK Hfuel.
  - pose proof (position_monotone st offs k K Hst Hne Hpos
                  ltac:(lia) ltac:(lia)). lia.
  - pose proof (position_monotone st offs 0 k Hst Hne Hpos ltac:(lia) ltac:(lia))
      as Hk0.
    pose proof (position_monotone st offs k K Hst Hne Hpos ltac:(lia) ltac:(lia))
      as HkK.
    rewrite position_0 in Hk0.
    pose proof (position_succ st offs k ltac:(lia)) as Hsucc.
    pose proof (position_increasing st offs k Hst Hne Hpos ltac:(lia)) as Hinc.
    pose proof (offset_at_upper offs (k - 1) Hne Hpos) as Hoff.
    set (s := mkSegmentedIndex st lc offs k (position st offs k)).
    assert (Next s =
              (Ret {| Scaled := k + 1; Unscaled := position st offs (k + 1) |},
               mkSegmentedIndex st lc offs (k + 1) (position st offs (k + 1))))
      as HNext.
    { assert (Int64.add k 1 = k + 1) as Hk1 by Int64Facts.wrap_lia.
      destruct (Z.eqb_spec k 0) as [-> | Hk1'].
      - rewrite Next_first by done. subst s.
        cbn [start lcd offsets scaled unscaled].
        assert (Int64.add (position st offs 0) (Int64.add st 1) =
                position st offs (0 + 1)) as ->; [| done].
        rewrite Hsucc, position_0. Int64Facts.wrap_lia.
      - rewrite Next_later by (subst s; cbn; (done || (Int64Facts.unwrap; lia))).
        subst s. cbn [start lcd offsets scaled unscaled].
        assert (Int64.add (position st offs k) (offset_at offs (k - 1)) =
                position st offs (k + 1)) as ->; [| by rewrite Hk1].
        rewrite Hsucc. Int64Facts.wrap_lia. }
    cbn [scan_with_Next]. unfold M_bind. rewrite HNext. cbn [Unscaled].
    destruct (Z.ltb_spec value (position st offs (k + 1))) as [Hover | Hgo].
    + assert (K <= k) as HKk
        by (apply (position_bracket_largest st offs value Hst Hne Hpos k K); lia).
      assert (K = k) as -> by lia.
      assert (Int64.sub (k + 1) 1 = k) as Hback by Int64Facts.wrap_lia.
      destruct (Z.eqb_spec k 0) as [-> | Hk1'].
      * rewrite Prev_first by done.
        cbn [start lcd offsets scaled unscaled].
        assert (Int64.sub (position st offs (0 + 1)) (Int64.add st 1) =
                position st offs 0) as ->; [| by rewrite Hback].
        rewrite Hsucc, position_0. Int64Facts.wrap_lia.
      * rewrite Prev_later by (cbn; (done || (Int64Facts.unwrap; lia))).
        cbn [start lcd offsets scaled unscaled].
        replace (k + 1 - 2) with (k - 1) by lia.
        assert (Int64.sub (position st offs (k + 1)) (offset_at offs (k - 1)) =
                position st offs k) as ->; [| by rewrite Hback].
        rewrite Hsucc. Int64Facts.wrap_lia.
    + assert (k + 1 <= K) as HkK'.
      { apply (position_bracket_largest st offs value Hst Hne Hpos K (k + 1)); lia. }
      apply IH; lia.
Qed.

Lemma linear_GoTo_finds (K : Z) :
  0 <= K ->
  position st offs K <= value < position st offs (K + 1) ->
  linear_GoTo value (NewSegmentedIndex st lc offs) =
    (Ret {| Scaled := K; Unscaled := position st offs K |},
     mkSegmentedIndex st lc offs K (position st offs K)).
Proof.
  intros HK Hbracket. unfold linear_GoTo, NewSegmentedIndex.
  destruct Hstriped as [[Hst Hlc Hpos Hsum Hfits] Hne Hlast].
  change (mkSegmentedIndex st lc offs 0 0)
    with (mkSegmentedIndex st lc offs 0 (position st offs 0)).
  apply scan_with_Next_finds; [lia | done |].
  rewrite position_0. lia.
Qed.

End ScanWithNext.

(** ** [GoTo] against the linear scan *)

Lemma striped_example : striped 0 3 [2; 1].
Proof.
  split; [split | done |].
  all: try (repeat constructor; lia).
  all: by vm_compute.
Qed.

(** C1, amended. For an instance built from a striping triple (positive
    offsets adding up to the cycle length, the elements of one cycle all
    inside the cycle, [start + lcd] within [int64]) and a target
    [0 <= value <= 2^63 - 1], whatever the cursor was: [GoTo value]
    returns, and sets the cursor to, the pair [(k, position k)] where [k]
    is the largest scaled index whose position is at most [value]. This
    is the pair found by the linear scan of the specification, and, as
    long as the scan's one step past [value] stays within [int64], what
    the scan made of [Next] and [Prev] returns and leaves behind. *)
Theorem GoTo_equals_linear_scan (st lc : Z) (offs : list Z) (value sc un : Z) :
  striped st lc offs ->
  0 <= value <= Int64.max_int ->
  exists k : Z,
    GoTo value (mkSegmentedIndex st lc offs sc un) =
      (Ret {| Scaled := k; Unscaled := position st offs k |},
       mkSegmentedIndex st lc offs k (position st offs k)) /\
    0 <= k /\
    position st offs k <= value /\
    (forall k' : Z, 0 <= k' -> position st offs k' <= value -> k' <= k) /\
    Spec.linear_seek st offs value = Some (k, position st offs k) /\
    (value + lc <= Int64.max_int ->
     linear_GoTo value (NewSegmentedIndex st lc offs) =
     GoTo value (mkSegmentedIndex st lc offs sc un)).
Proof.
  intros Hstriped Hvalue.
  destruct (GoTo_seek st lc offs value Hstriped Hvalue sc un)
    as (k & Hk & Hrun & Hbracket).
  pose proof Hstriped as [[Hst Hlc Hpos Hsum Hfits] Hne Hlast].
  exists k. split_and!; [done | done | lia | | |].
  - intros k' Hk' Hle.
    apply (position_bracket_largest st offs value Hst Hne Hpos k k'); lia.
  - by apply linear_seek_finds.
  - intros Hroom. rewrite Hrun.
    apply (linear_GoTo_finds st lc offs value); (done || lia).
Qed.

Lemma GoTo_equals_linear_scan_witness :
  exists k : Z,
    GoTo 5 (mkSegmentedIndex 0 3 [2; 1] 0 0) =
      (Ret {| Scaled := k; Unscaled := position 0 [2; 1] k |},
       mkSegmentedIndex 0 3 [2; 1] k (position 0 [2; 1] k)) /\
    0 <= k /\
    position 0 [2; 1] k <= 5 /\
    (forall k' : Z, 0 <= k' -> position 0 [2; 1] k' <= 5 -> k' <= k) /\
    Spec.linear_seek 0 [2; 1] 5 = Some (k, position 0 [2; 1] k) /\
    (5 + 3 <= Int64.max_int ->
     linear_GoTo 5 (NewSegmentedIndex 0 3 [2; 1]) =
     GoTo 5 (mkSegmentedIndex 0 3 [2; 1] 0 0)).
Proof.
  apply (GoTo_equals_linear_scan 0 3 [2; 1] 5 0 0).
  - exact striped_example.
  - vm_compute. split; discriminate.
Defined.

(** C1 as stated fails. With [start = 0], [lcd = 3], [offsets = [1]]
    (a non-negative start, a positive cycle length, offsets that are not
    empty) [GoTo 3] lands on scaled 1, although scaled 3 has position 3,
    where the linear scan stops. And when [start + lcd] leaves [int64],
    [i] wraps around in the loop, which then indexes past the offsets. *)
Lemma GoTo_differs_from_linear_scan :
  (0 <= 0 /\ 0 < 3 /\ [1] <> [] /\ 0 <= 3) /\
  GoTo 3 (NewSegmentedIndex 0 3 [1]) =
    (Ret {| Scaled := 1; Unscaled := 3 |}, mkSegmentedIndex 0 3 [1] 1 3) /\
  position 0 [1] 3 = 3 /\
  Spec.linear_seek 0 [1] 3 = Some (3, 3) /\
  ~ (exists k : Z,
       fst (GoTo 3 (NewSegmentedIndex 0 3 [1])) =
         Ret {| Scaled := k; Unscaled := position 0 [1] k |} /\
       forall k' : Z, 0 <= k' -> position 0 [1] k' <= 3 -> k' <= k) /\
  fst (GoTo 4611686018427387905
         (NewSegmentedIndex 4611686018427387904 9223372036854775807
            [9223372036854775807])) = Panic IndexOutOfRange.
Proof.
  split_and!; try done; try (by vm_compute).
  intros (k & Hrun & Hmax). vm_compute in Hrun.
  injection Hrun as Hk _. subst k.
  specialize (Hmax 3 ltac:(lia)). vm_compute in Hmax.
  apply Hmax; [by intros [=] | done].
Qed.

(** ** The loop of [GoTo] stays in bounds *)

Lemma walkable_nonempty (st lc : Z) (offs : list Z) :
  walkable st lc offs -> offs <> [].
Proof. intros [_ Hlc _ Hsum _] ->. cbn in Hsum. lia. Qed.

Lemma GoTo_returns (st lc : Z) (offs : list Z) (value sc un : Z) :
  walkable st lc offs ->
  0 <= value <= Int64.max_int ->
  exists r s', GoTo value (mkSegmentedIndex st lc offs sc un) = (Ret r, s').
Proof.
  intros Hwalk Hvalue. pose proof (walkable_nonempty _ _ _ Hwalk) as Hne.
  pose proof (len_pos offs Hne) as Hlen. unfold len in Hlen.
  pose proof Hwalk as [Hst Hlc Hpos Hsum Hfits].
  pose proof (sumZ_positive offs Hpos) as Hn.
  unfold GoTo, M_bind, self, set_scaled, set_unscaled, eval, result, M_ret.
  cbn [start lcd offsets scaled unscaled].
  unfold quot64. destruct (Z.eqb_spec lc 0) as [H0 | _]; [lia |].
  cbn [start lcd offsets scaled unscaled].
  destruct (GoTo_loop_walk st lc offs value Hwalk ltac:(lia)
              (S (length offs)) 0
              (Int64.mul (Int64.wrap (value ÷ lc)) (len offs))
              (Int64.add (Int64.add (Int64.mul (Int64.wrap (value ÷ lc)) lc) st) 1))
    as (g2 & Hg2 & Hrun & _).
  { lia. } { lia. }
  { apply Int64Facts.wrap_in_range. } { apply Int64Facts.wrap_in_range. }
  { intros g' Hg'. lia. }
  rewrite prefix_sum_0, Z.add_0_r in Hrun.
  change (Z.of_nat 0) with 0 in Hrun. rewrite Hrun. clear Hrun.
  cbn [start lcd offsets scaled unscaled].
  destruct (Z.ltb_spec 0 (Z.of_nat g2)) as [Hsteps | Hnone].
  - destruct (lookup_lt_is_Some_2 offs (g2 - 1)) as [o Ho]; [lia |].
    assert (Int64.sub (Z.of_nat g2) 1 = Z.of_nat (g2 - 1)) as ->.
    { unfold Int64.sub. rewrite Int64Facts.wrap_small; [lia |].
      Int64Facts.unwrap. lia. }
    cbn [start lcd offsets scaled unscaled].
    rewrite (index_lookup offs _ o Ho).
    cbn [start lcd offsets scaled unscaled].
    destruct (_ =? 0); cbn [start lcd offsets scaled unscaled]; eauto.
  - destruct (0 <? _); cbn [start lcd offsets scaled unscaled].
    + destruct (lookup_lt_is_Some_2 offs (length offs - 1)) as [o Ho]; [lia |].
      assert (Int64.sub (len offs) 1 = Z.of_nat (length offs - 1)) as ->.
      { unfold Int64.sub, len. rewrite Int64Facts.wrap_small; [lia |].
        Int64Facts.unwrap. lia. }
      rewrite (index_lookup offs _ o Ho).
      cbn [start lcd offsets scaled unscaled].
      destruct (_ =? 0); cbn [start lcd offsets scaled unscaled]; eauto.
    + destruct (_ =? 0); cbn [start lcd offsets scaled unscaled]; eauto.
Qed.

(** C10, amended. With a non-negative start, a positive cycle length,
    positive offsets adding up to it, [start + lcd <= 2^63 - 1] and
    [0 <= value <= 2^63 - 1]: the loop of [GoTo], entered with the
    cursor [GoTo] has just seeded, stops after [g2 <= len(offsets)]
    iterations; the indices [0 .. g2-1] it reads, the index [g2 - 1] of
    the first correction and the index [len(offsets) - 1] of the second
    one are all inside [offsets]; and [GoTo] returns, from any cursor. *)
Theorem GoTo_loop_within_offsets (st lc : Z) (offs : list Z) (value sc un : Z) :
  walkable st lc offs ->
  0 <= value <= Int64.max_int ->
  (exists (g2 : nat) (s1 : SegmentedIndex),
     GoTo_loop (S (length offs)) value 0 st
       (mkSegmentedIndex st lc offs
          (Int64.mul (Int64.wrap (value ÷ lc)) (len offs))
          (Int64.add (Int64.add (Int64.mul (Int64.wrap (value ÷ lc)) lc) st) 1)) =
       (Ret (Z.of_nat g2), s1) /\
     (g2 <= length offs)%nat /\
     (forall g : nat, (g < g2)%nat -> exists o, index offs (Z.of_nat g) = Ret o) /\
     ((0 < g2)%nat -> exists o, index offs (Int64.sub (Z.of_nat g2) 1) = Ret o) /\
     (exists o, index offs (Int64.sub (len offs) 1) = Ret o)) /\
  (exists r s', GoTo value (mkSegmentedIndex st lc offs sc un) = (Ret r, s')).
Proof.
  intros Hwalk Hvalue. split; [| by apply GoTo_returns].
  pose proof (walkable_nonempty _ _ _ Hwalk) as Hne.
  pose proof (len_pos offs Hne) as Hlen. unfold len in Hlen.
  pose proof Hwalk as [Hst Hlc Hpos Hsum Hfits].
  pose proof (sumZ_positive offs Hpos) as Hn.
  destruct (GoTo_loop_walk st lc offs value Hwalk ltac:(lia)
              (S (length offs)) 0
              (Int64.mul (Int64.wrap (value ÷ lc)) (len offs))
              (Int64.add (Int64.add (Int64.mul (Int64.wrap (value ÷ lc)) lc) st) 1))
    as (g2 & Hg2 & Hrun & _);
    [lia | lia | apply mul_in_range | apply add_in_range | intros; lia |].
  rewrite prefix_sum_0, Z.add_0_r in Hrun. change (Z.of_nat 0) with 0 in Hrun.
  exists g2. eexists. split_and!; [exact Hrun | lia | | |].
  - intros g Hg. destruct (lookup_lt_is_Some_2 offs g) as [o Ho]; [lia |].
    exists o. by apply index_lookup.
  - intros Hsteps.
    destruct (lookup_lt_is_Some_2 offs (g2 - 1)) as [o Ho]; [lia |].
    exists o. rewrite <- (index_lookup offs _ o Ho). f_equal.
    unfold Int64.sub. rewrite Int64Facts.wrap_small; [lia |].
    Int64Facts.unwrap. lia.
  - destruct (lookup_lt_is_Some_2 offs (length offs - 1)) as [o Ho]; [lia |].
    exists o. rewrite <- (index_lookup offs _ o Ho). f_equal.
    unfold Int64.sub, len. rewrite Int64Facts.wrap_small; [lia |].
    Int64Facts.unwrap. lia.
Qed.

Lemma GoTo_loop_within_offsets_witness :
  (exists (g2 : nat) (s1 : SegmentedIndex),
     GoTo_loop (S (length [2; 1])) 5 0 0
       (mkSegmentedIndex 0 3 [2; 1]
          (Int64.mul (Int64.wrap (5 ÷ 3)) (len [2; 1]))
          (Int64.add (Int64.add (Int64.mul (Int64.wrap (5 ÷ 3)) 3) 0) 1)) =
       (Ret (Z.of_nat g2), s1) /\
     (g2 <= length [2; 1])%nat /\
     (forall g : nat, (g < g2)%nat -> exists o, index [2; 1] (Z.of_nat g) = Ret o) /\
     ((0 < g2)%nat -> exists o, index [2; 1] (Int64.sub (Z.of_nat g2) 1) = Ret o) /\
     (exists o, index [2; 1] (Int64.sub (len [2; 1]) 1) = Ret o)) /\
  (exists r s', GoTo 5 (mkSegmentedIndex 0 3 [2; 1] 0 0) = (Ret r, s')).
Proof.
  apply (GoTo_loop_within_offsets 0 3 [2; 1] 5 0 0).
  - exact (striped_walkable _ _ _ striped_example).
  - vm_compute. split; discriminate.
Defined.

(** C10 as stated fails: the start is non-negative, the cycle length
    positive, the one offset positive and equal to the cycle length, the
    target non-negative; [i] becomes [2^62 + 2^63 - 1], wraps around to
    a negative number, and the second iteration reads [offsets[1]]. *)
Lemma GoTo_loop_leaves_offsets :
  (0 <= 4611686018427387904 /\
   0 < 9223372036854775807 /\
   Forall (fun o => 0 < o) [9223372036854775807] /\
   sumZ [9223372036854775807] = 9223372036854775807) /\
  0 <= 4611686018427387905 /\
  GoTo 4611686018427387905
    (NewSegmentedIndex 4611686018427387904 9223372036854775807
       [9223372036854775807]) =
  (Panic IndexOutOfRange,
   mkSegmentedIndex 4611686018427387904 9223372036854775807
     [9223372036854775807] 2 (-4611686018427387904)).
Proof.
  split_and!; try done; try (by vm_compute).
  repeat constructor; lia.
Qed.

(** ** The construction parameters are never written *)

Lemma same_params_refl (s : SegmentedIndex) : same_params s s.
Proof. done. Qed.

Lemma same_params_trans (s1 s2 s3 : SegmentedIndex) :
  same_params s1 s2 -> same_params s2 s3 -> same_params s1 s3.
Proof. unfold same_params. intros (? & ? & ?) (? & ? & ?). split_and!; congruence. Qed.

Lemma keeps_ret {A : Type} (a : A) : keeps_params (M_ret a).
Proof. intros s. apply same_params_refl. Qed.

Lemma keeps_self : keeps_params self.
Proof. intros s. apply same_params_refl. Qed.

Lemma keeps_eval {A : Type} (r : res A) : keeps_params (eval r).
Proof. intros s. apply same_params_refl. Qed.

Lemma keeps_result : keeps_params result.
Proof. intros s. apply same_params_refl. Qed.

Lemma keeps_set_scaled (v : Z) : keeps_params (set_scaled v).
Proof. by intros s. Qed.

Lemma keeps_set_unscaled (v : Z) : keeps_params (set_unscaled v).
Proof. by intros s. Qed.

Lemma keeps_bind {A B : Type} (m : M A) (k : A -> M B) :
  keeps_params m -> (forall a, keeps_params (k a)) -> keeps_params (M_bind m k).
Proof.
  intros Hm Hk s. unfold M_bind. specialize (Hm s).
  destruct (m s) as [[a | f |] s1]; cbn [snd] in *; [| done | done].
  apply (same_params_trans s s1); [done | apply Hk].
Qed.

Lemma keeps_if {A : Type} (b : bool) (m1 m2 : M A) :
  keeps_params m1 -> keeps_params m2 -> keeps_params (if b then m1 else m2).
Proof. by destruct b. Qed.

Create HintDb keeps discriminated.
#[local] Hint Resolve keeps_ret keeps_self keeps_eval keeps_result
  keeps_set_scaled keeps_set_unscaled : keeps.
#[local] Hint Extern 1 (keeps_params (M_bind _ _)) =>
  apply keeps_bind; [| intros ?] : keeps.
#[local] Hint Extern 1 (keeps_params (if _ then _ else _)) =>
  apply keeps_if : keeps.

Lemma Next_keeps : keeps_params Next.
Proof. unfold Next. auto 20 with keeps. Qed.

Lemma Prev_keeps : keeps_params Prev.
Proof. unfold Prev. auto 20 with keeps. Qed.

Lemma GoTo_loop_keeps (fuel : nat) :
  forall value gi i : Z, keeps_params (GoTo_loop fuel value gi i).
Proof.
  induction fuel as [| fuel IH]; intros value gi i; cbn [GoTo_loop];
    auto 20 with keeps.
Qed.

Lemma GoTo_keeps (value : Z) : keeps_params (GoTo value).
Proof.
  unfold GoTo. pose proof GoTo_loop_keeps as Hloop. auto 20 with keeps.
Qed.

Lemma run_call_keeps (c : call) : keeps_params (run_call c).
Proof.
  destruct c; cbn [run_call];
    [apply Next_keeps | apply Prev_keeps | apply GoTo_keeps].
Qed.

Lemma run_calls_keeps (cs : list call) :
  forall s : SegmentedIndex, same_params s (run_calls cs s).
Proof.
  unfold run_calls. induction cs as [| c cs IH]; intros s.
  - apply same_params_refl.
  - cbn [foldl].
    apply (same_params_trans s (snd (run_call c s)));
      [apply run_call_keeps | apply IH].
Qed.

(** C8. Whatever the calls, in whatever state, and whether they return
    or panic: [start], [lcd] and [offsets] hold the values given to
    [NewSegmentedIndex]. *)
Theorem navigation_keeps_parameters :
  (forall (c : call) (s : SegmentedIndex),
     start (snd (run_call c s)) = start s /\
     lcd (snd (run_call c s)) = lcd s /\
     offsets (snd (run_call c s)) = offsets s) /\
  (forall (cs : list call) (st lc : Z) (offs : list Z),
     start (run_calls cs (NewSegmentedIndex st lc offs)) = st /\
     lcd (run_calls cs (NewSegmentedIndex st lc offs)) = lc /\
     offsets (run_calls cs (NewSegmentedIndex st lc offs)) = offs).
Proof.
  split.
  - intros c s. apply run_call_keeps.
  - intros cs st lc offs.
    apply (run_calls_keeps cs (NewSegmentedIndex st lc offs)).
Qed.

(** ** [Next] and [Prev] *)

(** C3. In a state of the data model ([offsets] not empty, [scaled] a
    non-negative [int64]) [Next] adds [start + 1] to [unscaled] when
    [scaled] is 0 and [offsets[(scaled - 1) mod len(offsets)]] otherwise,
    adds one to [scaled] (both in [int64] arithmetic), and returns the
    two fields; and the first [n] calls on a fresh instance return the
    scaled values [1, 2, ..., n], for every [n] an [int64] can count. *)
Theorem Next_advances :
  (forall s : SegmentedIndex,
     offsets s <> [] ->
     0 <= scaled s <= Int64.max_int ->
     let delta :=
       if scaled s =? 0 then Int64.add (start s) 1
       else offset_at (offsets s) (scaled s - 1) in
     Next s =
       (Ret {| Scaled := Int64.add (scaled s) 1;
               Unscaled := Int64.add (unscaled s) delta |},
        {| start := start s; lcd := lcd s; offsets := offsets s;
           scaled := Int64.add (scaled s) 1;
           unscaled := Int64.add (unscaled s) delta |})) /\
  (forall (st lc : Z) (offs : list Z) (n : nat),
     offs <> [] ->
     Z.of_nat n <= Int64.max_int ->
     Forall2 (fun r k => exists u, r = Ret {| Scaled := k; Unscaled := u |})
       (Next_results n (NewSegmentedIndex st lc offs))
       (seqZ 1 (Z.of_nat n))).
Proof.
  assert (forall s : SegmentedIndex,
     offsets s <> [] ->
     0 <= scaled s <= Int64.max_int ->
     let delta :=
       if scaled s =? 0 then Int64.add (start s) 1
       else offset_at (offsets s) (scaled s - 1) in
     Next s =
       (Ret {| Scaled := Int64.add (scaled s) 1;
               Unscaled := Int64.add (unscaled s) delta |},
        {| start := start s; lcd := lcd s; offsets := offsets s;
           scaled := Int64.add (scaled s) 1;
           unscaled := Int64.add (unscaled s) delta |})) as Hstep.
  { intros s Hne Hs. cbv zeta.
    destruct (Z.eqb_spec (scaled s) 0) as [H0 | Hpos].
    - by apply Next_first.
    - apply Next_later; [done | lia]. }
  split; [exact Hstep |].
  intros st lc offs n Hne Hn.
  change 1 with (scaled (NewSegmentedIndex st lc offs) + 1).
  assert (offsets (NewSegmentedIndex st lc offs) <> []) as Hoffs by done.
  assert (0 <= scaled (NewSegmentedIndex st lc offs)) as H0 by done.
  assert (scaled (NewSegmentedIndex st lc offs) + Z.of_nat n <= Int64.max_int)
    as Hmax by (cbn [scaled NewSegmentedIndex]; lia).
  revert Hoffs H0 Hmax. generalize (NewSegmentedIndex st lc offs) as s.
  clear Hn. induction n as [| n IH]; intros s Hoffs H0 Hmax.
  - rewrite seqZ_nil by lia. constructor.
  - cbn [Next_results]. rewrite (Hstep s Hoffs ltac:(lia)).
    rewrite seqZ_cons by lia.
    assert (Int64.add (scaled s) 1 = scaled s + 1) as Hadd.
    { unfold Int64.add. apply Int64Facts.wrap_small. Int64Facts.unwrap. lia. }
    constructor.
    + eexists. by rewrite Hadd.
    + rewrite Hadd.
      replace (Z.pred (Z.of_nat (S n))) with (Z.of_nat n) by lia.
      specialize (IH {| start := start s; lcd := lcd s; offsets := offsets s;
                        scaled := scaled s + 1;
                        unscaled := Int64.add (unscaled s)
                          (if scaled s =? 0 then Int64.add (start s) 1
                           else offset_at (offsets s) (scaled s - 1)) |}).
      cbn [start lcd offsets scaled unscaled] in IH.
      replace (Z.succ (scaled s + 1)) with (scaled s + 1 + 1) by lia.
      apply IH; [done | lia | lia].
Qed.

Lemma Next_advances_witness :
  Next (mkSegmentedIndex 0 3 [2; 1] 2 3) =
    (Ret {| Scaled := 3; Unscaled := 4 |}, mkSegmentedIndex 0 3 [2; 1] 3 4) /\
  Forall2 (fun r k => exists u, r = Ret {| Scaled := k; Unscaled := u |})
    (Next_results 4 (NewSegmentedIndex 0 3 [2; 1]))
    (seqZ 1 (Z.of_nat 4)).
Proof.
  split.
  - apply (proj1 Next_advances (mkSegmentedIndex 0 3 [2; 1] 2 3)).
    + discriminate.
    + vm_compute. split; discriminate.
  - apply (proj2 Next_advances 0 3 [2; 1] 4%nat).
    + discriminate.
    + vm_compute. discriminate.
Defined.

(** C4. In a state with [offsets] not empty and [scaled >= 1], [Prev]
    subtracts [start + 1] from [unscaled] when [scaled] is 1 and
    [offsets[(scaled - 2) mod len(offsets)]] otherwise (in [int64]
    arithmetic), takes one off [scaled], and returns the two fields. *)
Theorem Prev_retreats (s : SegmentedIndex) :
  offsets s <> [] ->
  1 <= scaled s <= Int64.max_int ->
  let delta :=
    if scaled s =? 1 then Int64.add (start s) 1
    else offset_at (offsets s) (scaled s - 2) in
  Prev s =
    (Ret {| Scaled := scaled s - 1;
            Unscaled := Int64.sub (unscaled s) delta |},
     {| start := start s; lcd := lcd s; offsets := offsets s;
        scaled := scaled s - 1;
        unscaled := Int64.sub (unscaled s) delta |}).
Proof.
  intros Hne Hs. cbv zeta.
  assert (Int64.sub (scaled s) 1 = scaled s - 1) as Hsub.
  { unfold Int64.sub. apply Int64Facts.wrap_small. Int64Facts.unwrap. lia. }
  destruct (Z.eqb_spec (scaled s) 1) as [H1 | Hmore].
  - rewrite <- Hsub. by apply Prev_first.
  - rewrite <- Hsub. apply Prev_later; [done | lia].
Qed.

Lemma Prev_retreats_witness :
  Prev (mkSegmentedIndex 0 3 [2; 1] 3 4) =
    (Ret {| Scaled := 2; Unscaled := 3 |}, mkSegmentedIndex 0 3 [2; 1] 2 3).
Proof.
  apply (Prev_retreats (mkSegmentedIndex 0 3 [2; 1] 3 4)).
  - discriminate.
  - vm_compute. split; discriminate.
Defined.

(** ** Round trips *)

Lemma ranged_ret {A : Type} (a : A) : keeps_range (M_ret a).
Proof. by intros s. Qed.

Lemma ranged_self : keeps_range self.
Proof. by intros s. Qed.

Lemma ranged_eval {A : Type} (r : res A) : keeps_range (eval r).
Proof. by intros s. Qed.

Lemma ranged_result : keeps_range result.
Proof. by intros s. Qed.

Lemma ranged_set_scaled (v : Z) :
  Int64.in_range v -> keeps_range (set_scaled v).
Proof. intros Hv s [_ Hu]. by split. Qed.

Lemma ranged_set_unscaled (v : Z) :
  Int64.in_range v -> keeps_range (set_unscaled v).
Proof. intros Hv s [Hk _]. by split. Qed.

Lemma ranged_bind {A B : Type} (m : M A) (k : A -> M B) :
  keeps_range m -> (forall a, keeps_range (k a)) -> keeps_range (M_bind m k).
Proof.
  intros Hm Hk s Hs. unfold M_bind. specialize (Hm s Hs).
  destruct (m s) as [[a | f |] s1]; cbn [snd] in *; [| done | done].
  by apply Hk.
Qed.

Lemma ranged_if {A : Type} (b : bool) (m1 m2 : M A) :
  keeps_range m1 -> keeps_range m2 -> keeps_range (if b then m1 else m2).
Proof. by destruct b. Qed.

Create HintDb ranged discriminated.
#[local] Hint Resolve ranged_ret ranged_self ranged_eval ranged_result
  ranged_set_scaled ranged_set_unscaled
  add_in_range sub_in_range mul_in_range zero_in_range : ranged.
#[local] Hint Extern 1 (keeps_range (M_bind _ _)) =>
  apply ranged_bind; [| intros ?] : ranged.
#[local] Hint Extern 1 (keeps_range (if _ then _ else _)) =>
  apply ranged_if : ranged.

Lemma Next_ranged : keeps_range Next.
Proof. unfold Next. auto 20 with ranged. Qed.

Lemma Prev_ranged : keeps_range Prev.
Proof. unfold Prev. auto 20 with ranged. Qed.

Lemma GoTo_loop_ranged (fuel : nat) :
  forall value gi i : Z, keeps_range (GoTo_loop fuel value gi i).
Proof.
  induction fuel as [| fuel IH]; intros value gi i; cbn [GoTo_loop];
    auto 20 with ranged.
Qed.

Lemma GoTo_ranged (value : Z) : keeps_range (GoTo value).
Proof.
  unfold GoTo. pose proof GoTo_loop_ranged as Hloop. auto 20 with ranged.
Qed.

(** Every field a call sequence leaves in the cursor is an [int64]. *)
Lemma run_calls_ranged (cs : list call) :
  forall s : SegmentedIndex, cursor_in_range s -> cursor_in_range (run_calls cs s).
Proof.
  unfold run_calls. induction cs as [| c cs IH]; intros s Hs; [done |].
  cbn [foldl]. apply IH.
  destruct c; cbn [run_call];
    [by apply Next_ranged | by apply Prev_ranged | by apply GoTo_ranged].
Qed.

(** Whenever [Next] returns, [Prev] takes it back: it reads the offset
    [Next] has read, also where [scaled] wrapped around in between. *)
Lemma Next_undone_by_Prev (s : SegmentedIndex) (r1 : SegmentedIndexResult)
    (s1 : SegmentedIndex) :
  cursor_in_range s ->
  Next s = (Ret r1, s1) ->
  Prev s1 = (Ret {| Scaled := scaled s; Unscaled := unscaled s |}, s).
Proof.
  destruct s as [st lc offs k u]. intros [Hk Hu].
  cbn [start lcd offsets scaled unscaled] in Hk, Hu.
  assert (Int64.sub (Int64.add k 1) 1 = k) as Hback by Int64Facts.wrap_lia.
  unfold Next. run_M. destruct (Z.eqb_spec k 0) as [-> | Hne].
  - intros [= <- <-]. unfold Prev. run_M.
    change (Int64.add 0 1 =? 1) with true. cbn match.
    change (Int64.sub (Int64.add 0 1) 1) with 0.
    by rewrite Int64Facts.add_sub_cancel.
  - destruct (rem64 (Int64.sub k 1) (len offs)) as [idx | f |] eqn:Hrem;
      [| done | done].
    destruct (index offs idx) as [o | f |] eqn:Hidx; [| done | done].
    intros [= <- <-]. unfold Prev. run_M.
    assert (Int64.add k 1 <> 1) as Hne1 by Int64Facts.wrap_lia.
    assert (Int64.sub (Int64.add k 1) 2 = Int64.sub k 1) as ->
      by Int64Facts.wrap_lia.
    destruct (Z.eqb_spec (Int64.add k 1) 1) as [H1 | _]; [done |].
    rewrite Hrem, Hidx. cbn [start lcd offsets scaled unscaled].
    by rewrite Hback, Int64Facts.add_sub_cancel.
Qed.

(** Whenever [Prev] returns, [Next] takes it back. *)
Lemma Prev_undone_by_Next (s : SegmentedIndex) (r1 : SegmentedIndexResult)
    (s1 : SegmentedIndex) :
  cursor_in_range s ->
  Prev s = (Ret r1, s1) ->
  Next s1 = (Ret {| Scaled := scaled s; Unscaled := unscaled s |}, s).
Proof.
  destruct s as [st lc offs k u]. intros [Hk Hu].
  cbn [start lcd offsets scaled unscaled] in Hk, Hu.
  assert (Int64.add (Int64.sub k 1) 1 = k) as Hback by Int64Facts.wrap_lia.
  unfold Prev. run_M. destruct (Z.eqb_spec k 1) as [-> | Hne].
  - intros [= <- <-]. unfold Next. run_M.
    change (Int64.sub 1 1 =? 0) with true. cbn match.
    change (Int64.add (Int64.sub 1 1) 1) with 1.
    by rewrite Int64Facts.sub_add_cancel.
  - destruct (rem64 (Int64.sub k 2) (len offs)) as [idx | f |] eqn:Hrem;
      [| done | done].
    destruct (index offs idx) as [o | f |] eqn:Hidx; [| done | done].
    intros [= <- <-]. unfold Next. run_M.
    assert (Int64.sub k 1 <> 0) as Hne0 by Int64Facts.wrap_lia.
    assert (Int64.sub (Int64.sub k 1) 1 = Int64.sub k 2) as ->
      by Int64Facts.wrap_lia.
    destruct (Z.eqb_spec (Int64.sub k 1) 0) as [H0 | _]; [done |].
    rewrite Hrem, Hidx. cbn [start lcd offsets scaled unscaled].
    by rewrite Hback, Int64Facts.sub_add_cancel.
Qed.

Lemma Next_returns (s : SegmentedIndex) :
  offsets s <> [] ->
  0 <= scaled s <= Int64.max_int ->
  exists r1 s1, Next s = (Ret r1, s1).
Proof.
  intros Hne Hk. destruct (decide (scaled s = 0)) as [H0 | Hpos].
  - rewrite Next_first by done. eauto.
  - rewrite Next_later by (done || lia). eauto.
Qed.

Lemma Prev_returns (s : SegmentedIndex) :
  offsets s <> [] ->
  1 <= scaled s <= Int64.max_int ->
  exists r1 s1, Prev s = (Ret r1, s1).
Proof.
  intros Hne Hk. destruct (decide (scaled s = 1)) as [H1 | Hmore].
  - rewrite Prev_first by done. eauto.
  - rewrite Prev_later by (done || lia). eauto.
Qed.

(** ** The cursor in reachable states *)

Lemma reachable_invariant (st lc : Z) (offs : list Z) (s : SegmentedIndex) :
  striped st lc offs ->
  reachable st lc offs s ->
  start s = st /\ lcd s = lc /\ offsets s = offs /\
  0 <= scaled s <= Int64.max_int /\
  unscaled s = Int64.wrap (position st offs (scaled s)).
Proof.
  intros Hstriped Hreach.
  induction Hreach as
      [| s r s' _ IH Hroom Hrun | s r s' _ IH Hsome Hrun
       | s value r s' _ IH Hvalue Hrun].
  - by split_and!.
  - destruct IH as (<- & <- & <- & Hk & Hu).
    pose proof (striped_nonempty _ _ _ Hstriped) as Hne.
    pose proof (position_succ (start s) (offsets s) (scaled s) ltac:(lia)) as Hpos.
    assert (Int64.add (scaled s) 1 = scaled s + 1) as Hadd
      by Int64Facts.wrap_lia.
    destruct (Z.eqb_spec (scaled s) 0) as [H0 | Hlater].
    + rewrite Next_first in Hrun by done. injection Hrun as _ <-.
      cbn [start lcd offsets scaled unscaled].
      split_and!; try done; [lia | lia |].
      rewrite Hadd, Hpos, Hu. unfold Int64.add.
      by rewrite Int64Facts.wrap_add_r, Int64Facts.wrap_add_l.
    + rewrite Next_later in Hrun by (done || lia). injection Hrun as _ <-.
      cbn [start lcd offsets scaled unscaled].
      split_and!; try done; [lia | lia |].
      rewrite Hadd, Hpos, Hu. unfold Int64.add.
      by rewrite Int64Facts.wrap_add_l.
  - destruct IH as (<- & <- & <- & Hk & Hu).
    pose proof (striped_nonempty _ _ _ Hstriped) as Hne.
    pose proof (position_succ (start s) (offsets s) (scaled s - 1) ltac:(lia))
      as Hpos.
    replace (scaled s - 1 + 1) with (scaled s) in Hpos by lia.
    assert (Int64.sub (scaled s) 1 = scaled s - 1) as Hsub
      by Int64Facts.wrap_lia.
    destruct (Z.eqb_spec (scaled s) 1) as [H1 | Hlater].
    + rewrite Prev_first in Hrun by done. injection Hrun as _ <-.
      cbn [start lcd offsets scaled unscaled].
      split_and!; try done; [lia | lia |].
      destruct (Z.eqb_spec (scaled s - 1) 0) as [_ | Hne0]; [| lia].
      rewrite Hsub, Hu, Hpos. unfold Int64.sub, Int64.add.
      rewrite Int64Facts.wrap_sub_r, Int64Facts.wrap_sub_l. f_equal. lia.
    + rewrite Prev_later in Hrun by (done || lia). injection Hrun as _ <-.
      cbn [start lcd offsets scaled unscaled].
      split_and!; try done; [lia | lia |].
      destruct (Z.eqb_spec (scaled s - 1) 0) as [H0 | _]; [lia |].
      replace (scaled s - 1 - 1) with (scaled s - 2) in Hpos by lia.
      rewrite Hsub, Hu, Hpos. unfold Int64.sub.
      rewrite Int64Facts.wrap_sub_l. f_equal. lia.
  - destruct IH as (<- & <- & <- & Hk & Hu).
    destruct s as [st lc offs k u]. cbn [start lcd offsets scaled unscaled] in *.
    destruct (GoTo_seek st lc offs value Hstriped Hvalue k u)
      as (k' & Hk' & Hrun' & Hbracket).
    rewrite Hrun' in Hrun. injection Hrun as _ <-.
    cbn [start lcd offsets scaled unscaled].
    destruct Hstriped as [[Hst Hlc Hpos Hsum Hfits] Hne Hlast].
    pose proof (position_monotone st offs 0 k' Hst Hne Hpos ltac:(lia) ltac:(lia))
      as Hmono.
    rewrite position_0 in Hmono.
    split_and!; try done; try lia.
    rewrite Int64Facts.wrap_small; [done |]. Int64Facts.unwrap. lia.
Qed.

(** The calls [reachable] follows do return: no reachable state is left
    out because a call within its domain panicked. *)
Lemma reachable_calls_return (st lc : Z) (offs : list Z) (s : SegmentedIndex) :
  striped st lc offs ->
  reachable st lc offs s ->
  (exists r s', Next s = (Ret r, s')) /\
  (1 <= scaled s -> exists r s', Prev s = (Ret r, s')) /\
  (forall value, 0 <= value <= Int64.max_int ->
                 exists r s', GoTo value s = (Ret r, s')).
Proof.
  intros Hstriped Hreach.
  destruct (reachable_invariant st lc offs s Hstriped Hreach)
    as (Hst & Hlc & Hoffs & Hk & _).
  pose proof (striped_nonempty _ _ _ Hstriped) as Hne. rewrite <- Hoffs in Hne.
  split_and!.
  - by apply Next_returns.
  - intros Hsome. apply Prev_returns; [done | lia].
  - intros value Hvalue. destruct s as [st' lc' offs' k u].
    cbn [start lcd offsets] in Hst, Hlc, Hoffs. subst st' lc' offs'.
    apply GoTo_returns; [apply Hstriped | done].
Qed.

(** C2, amended. For an instance built from a striping triple, in every
    state reached by calls of [Next] (while [scaled] can be incremented),
    [Prev] (with [scaled >= 1]) and [GoTo] (at a target in
    [0 .. 2^63 - 1]): [scaled] is not negative and [unscaled] is the
    position of the [scaled]-th element as an [int64], that is reduced
    modulo [2^64]; it is that position itself whenever the position is
    at most [2^63 - 1], and 0 when [scaled] is 0. *)
Theorem reachable_cursor_position (st lc : Z) (offs : list Z) (s : SegmentedIndex) :
  striped st lc offs ->
  reachable st lc offs s ->
  0 <= scaled s /\
  unscaled s = Int64.wrap (position st offs (scaled s)) /\
  (position st offs (scaled s) <= Int64.max_int ->
   unscaled s = position st offs (scaled s)) /\
  (scaled s = 0 -> unscaled s = 0).
Proof.
  intros Hstriped Hreach.
  destruct (reachable_invariant st lc offs s Hstriped Hreach)
    as (_ & _ & _ & Hk & Hu).
  destruct Hstriped as [[Hst Hlc Hpos Hsum Hfits] Hne Hlast].
  pose proof (position_monotone st offs 0 (scaled s) Hst Hne Hpos
                ltac:(lia) ltac:(lia)) as Hmono.
  rewrite position_0 in Hmono.
  split_and!; [lia | done | |].
  - intros Hfit. rewrite Hu. apply Int64Facts.wrap_small.
    Int64Facts.unwrap. lia.
  - intros H0. rewrite Hu, H0. by vm_compute.
Qed.

Lemma reachable_cursor_position_witness :
  0 <= scaled (mkSegmentedIndex 0 3 [2; 1] 3 4) /\
  unscaled (mkSegmentedIndex 0 3 [2; 1] 3 4) =
    Int64.wrap (position 0 [2; 1] (scaled (mkSegmentedIndex 0 3 [2; 1] 3 4))) /\
  (position 0 [2; 1] (scaled (mkSegmentedIndex 0 3 [2; 1] 3 4)) <= Int64.max_int ->
   unscaled (mkSegmentedIndex 0 3 [2; 1] 3 4) =
     position 0 [2; 1] (scaled (mkSegmentedIndex 0 3 [2; 1] 3 4))) /\
  (scaled (mkSegmentedIndex 0 3 [2; 1] 3 4) = 0 ->
   unscaled (mkSegmentedIndex 0 3 [2; 1] 3 4) = 0).
Proof.
  apply (reachable_cursor_position 0 3 [2; 1]).
  - exact striped_example.
  - apply (reachable_GoTo 0 3 [2; 1] (NewSegmentedIndex 0 3 [2; 1]) 5
             {| Scaled := 3; Unscaled := 4 |}).
    + apply reachable_New.
    + vm_compute. split; discriminate.
    + vm_compute. reflexivity.
Defined.

(** C2 as stated fails, in two ways. With [start = 0], [lcd = 3],
    [offsets = [1]] the call [GoTo 3] leaves [scaled = 1] with
    [unscaled = 3], while the first element sits at position 1. And with
    the striping triple [start = 0], [lcd = 2^62], [offsets = [2^62]]
    three calls of [Next] leave [scaled = 3] with the negative
    [unscaled = -2^63 + 1], the third element's position [2^63 + 1]
    being too large for an [int64]. *)
Lemma reachable_cursor_off_position :
  (reachable 0 3 [1] (mkSegmentedIndex 0 3 [1] 1 3) /\
   position 0 [1] 1 = 1) /\
  (striped 0 4611686018427387904 [4611686018427387904] /\
   reachable 0 4611686018427387904 [4611686018427387904]
     (mkSegmentedIndex 0 4611686018427387904 [4611686018427387904]
        3 (-9223372036854775807)) /\
   position 0 [4611686018427387904] 3 = 9223372036854775809).
Proof.
  split_and!.
  - apply (reachable_GoTo 0 3 [1] (NewSegmentedIndex 0 3 [1]) 3
             {| Scaled := 1; Unscaled := 3 |}).
    + apply reachable_New.
    + vm_compute. split; discriminate.
    + by vm_compute.
  - by vm_compute.
  - split; [split | done |].
    all: try (repeat constructor; lia).
    all: by vm_compute.
  - set (lc := 4611686018427387904).
    apply (reachable_Next 0 lc [lc] (mkSegmentedIndex 0 lc [lc] 2 (lc + 1))
             {| Scaled := 3; Unscaled := -9223372036854775807 |});
      [| by vm_compute | by vm_compute].
    apply (reachable_Next 0 lc [lc] (mkSegmentedIndex 0 lc [lc] 1 1)
             {| Scaled := 2; Unscaled := lc + 1 |});
      [| by vm_compute | by vm_compute].
    apply (reachable_Next 0 lc [lc] (NewSegmentedIndex 0 lc [lc])
             {| Scaled := 1; Unscaled := 1 |});
      [| by vm_compute | by vm_compute].
    apply reachable_New.
  - by vm_compute.
Qed.

(** C5. After any sequence of calls on a fresh instance, whatever its
    parameters: when [Next] returns, [Prev] right after it returns the
    fields the receiver had and restores the receiver, and the other way
    round. And for an instance built from a striping triple, in every
    reachable state [Next] does return, and so does [Prev] when
    [scaled >= 1], each followed by the other restoring the state. *)
Theorem Next_Prev_round_trip :
  (forall (st lc : Z) (offs : list Z) (cs : list call)
          (r1 : SegmentedIndexResult) (s1 : SegmentedIndex),
     let s := run_calls cs (NewSegmentedIndex st lc offs) in
     (Next s = (Ret r1, s1) ->
      Prev s1 = (Ret {| Scaled := scaled s; Unscaled := unscaled s |}, s)) /\
     (Prev s = (Ret r1, s1) ->
      Next s1 = (Ret {| Scaled := scaled s; Unscaled := unscaled s |}, s))) /\
  (forall (st lc : Z) (offs : list Z) (s : SegmentedIndex),
     striped st lc offs ->
     reachable st lc offs s ->
     (exists r1 s1,
        Next s = (Ret r1, s1) /\
        Prev s1 = (Ret {| Scaled := scaled s; Unscaled := unscaled s |}, s)) /\
     (1 <= scaled s ->
      exists r1 s1,
        Prev s = (Ret r1, s1) /\
        Next s1 = (Ret {| Scaled := scaled s; Unscaled := unscaled s |}, s))).
Proof.
  split.
  - intros st lc offs cs r1 s1 s.
    assert (cursor_in_range s) as Hs.
    { apply run_calls_ranged. split; apply zero_in_range. }
    split; [by apply Next_undone_by_Prev | by apply Prev_undone_by_Next].
  - intros st lc offs s Hstriped Hreach.
    destruct (reachable_invariant st lc offs s Hstriped Hreach)
      as (_ & _ & Hoffs & Hk & Hu).
    pose proof (striped_nonempty _ _ _ Hstriped) as Hne. rewrite <- Hoffs in Hne.
    assert (cursor_in_range s) as Hs.
    { split; [Int64Facts.unwrap; lia |].
      rewrite Hu. apply Int64Facts.wrap_in_range. }
    split.
    + destruct (Next_returns s Hne Hk) as (r1 & s1 & Hrun).
      exists r1, s1. split; [done |]. by apply (Next_undone_by_Prev s r1).
    + intros Hsome.
      destruct (Prev_returns s Hne ltac:(lia)) as (r1 & s1 & Hrun).
      exists r1, s1. split; [done |]. by apply (Prev_undone_by_Next s r1).
Qed.

Lemma Next_Prev_round_trip_witness :
  Prev (mkSegmentedIndex 0 3 [2; 1] 4 6) =
    (Ret {| Scaled := scaled (run_calls [CallGoTo 5] (NewSegmentedIndex 0 3 [2; 1]));
            Unscaled := unscaled (run_calls [CallGoTo 5] (NewSegmentedIndex 0 3 [2; 1])) |},
     run_calls [CallGoTo 5] (NewSegmentedIndex 0 3 [2; 1])) /\
  (exists r1 s1,
     Next (mkSegmentedIndex 0 3 [2; 1] 3 4) = (Ret r1, s1) /\
     Prev s1 =
       (Ret {| Scaled := scaled (mkSegmentedIndex 0 3 [2; 1] 3 4);
               Unscaled := unscaled (mkSegmentedIndex 0 3 [2; 1] 3 4) |},
        mkSegmentedIndex 0 3 [2; 1] 3 4)).
Proof.
  split.
  - apply (proj1 (proj1 Next_Prev_round_trip 0 3 [2; 1] [CallGoTo 5]
                    {| Scaled := 4; Unscaled := 6 |}
                    (mkSegmentedIndex 0 3 [2; 1] 4 6))).
    vm_compute. reflexivity.
  - apply (proj2 Next_Prev_round_trip 0 3 [2; 1] (mkSegmentedIndex 0 3 [2; 1] 3 4)).
    + exact striped_example.
    + apply (reachable_GoTo 0 3 [2; 1] (NewSegmentedIndex 0 3 [2; 1]) 5
               {| Scaled := 3; Unscaled := 4 |}).
      * apply reachable_New.
      * vm_compute. split; discriminate.
      * vm_compute. reflexivity.
Defined.

(** ** [GoTo] forgets the cursor *)

Lemma GoTo_same_params (value : Z) (s1 s2 : SegmentedIndex) :
  lcd s1 <> 0 -> same_params s1 s2 -> GoTo value s2 = GoTo value s1.
Proof.
  destruct s1 as [st lc offs k1 u1], s2 as [st2 lc2 offs2 k2 u2].
  unfold same_params. cbn [start lcd offsets].
  intros Hlc (-> & -> & ->).
  unfold GoTo, M_bind, self, set_scaled, set_unscaled, eval.
  cbn [start lcd offsets scaled unscaled].
  unfold quot64. by destruct (Z.eqb_spec lc 0).
Qed.

Lemma GoTo_zero (s : SegmentedIndex) :
  0 <= start s -> lcd s <> 0 ->
  GoTo 0 s =
    (Ret {| Scaled := 0; Unscaled := 0 |},
     {| start := start s; lcd := lcd s; offsets := offsets s;
        scaled := 0; unscaled := 0 |}).
Proof.
  intros Hst Hlc.
  unfold GoTo, M_bind, self, set_scaled, set_unscaled, eval, result, M_ret.
  cbn [start lcd offsets scaled unscaled].
  unfold quot64. destruct (Z.eqb_spec (lcd s) 0) as [H0 | _]; [done |].
  rewrite Z.quot_0_l by done.
  change (Int64.wrap 0) with 0. change (Int64.mul 0 ?x) with 0.
  rewrite GoTo_loop_S. cbn [start lcd offsets scaled unscaled].
  unfold rem64. destruct (Z.eqb_spec (lcd s) 0) as [H0 | _]; [done |].
  rewrite Z.rem_0_l by done.
  destruct (Z.ltb_spec (start s) 0) as [Hneg | _]; [lia |].
  by cbn [start lcd offsets scaled unscaled].
Qed.

(** C9. For an instance with a cycle length other than 0, the outcome of
    [GoTo value] (the returned pair and every field afterwards) is the
    same from any two cursors; [GoTo value] twice leaves what [GoTo value]
    once leaves; and with a non-negative start [GoTo 0] gives
    [scaled = 0], [unscaled = 0] from any cursor. *)
Theorem GoTo_ignores_cursor :
  (forall (value : Z) (s1 s2 : SegmentedIndex),
     lcd s1 <> 0 -> same_params s1 s2 -> GoTo value s2 = GoTo value s1) /\
  (forall (value : Z) (s : SegmentedIndex),
     GoTo value (snd (GoTo value s)) = GoTo value s) /\
  (forall s : SegmentedIndex,
     0 <= start s -> lcd s <> 0 ->
     GoTo 0 s =
       (Ret {| Scaled := 0; Unscaled := 0 |},
        {| start := start s; lcd := lcd s; offsets := offsets s;
           scaled := 0; unscaled := 0 |})).
Proof.
  split_and!.
  - apply GoTo_same_params.
  - intros value s. destruct (decide (lcd s = 0)) as [H0 | Hlc].
    + assert (GoTo value s = (Panic DivideByZero, s)) as Hpanic.
      { unfold GoTo, M_bind, self, eval, quot64. cbn. rewrite H0. done. }
      by rewrite Hpanic.
    + apply GoTo_same_params; [done | apply GoTo_keeps].
  - apply GoTo_zero.
Qed.

Lemma GoTo_ignores_cursor_witness :
  GoTo 5 (mkSegmentedIndex 0 3 [2; 1] 7 10) =
    GoTo 5 (mkSegmentedIndex 0 3 [2; 1] 0 0) /\
  GoTo 0 (mkSegmentedIndex 0 3 [2; 1] 7 10) =
    (Ret {| Scaled := 0; Unscaled := 0 |}, mkSegmentedIndex 0 3 [2; 1] 0 0).
Proof.
  split.
  - apply (proj1 GoTo_ignores_cursor 5 (mkSegmentedIndex 0 3 [2; 1] 0 0)
             (mkSegmentedIndex 0 3 [2; 1] 7 10)).
    + discriminate.
    + vm_compute. auto.
  - apply (proj2 (proj2 GoTo_ignores_cursor) (mkSegmentedIndex 0 3 [2; 1] 7 10)).
    + vm_compute. discriminate.
    + discriminate.
Defined.

(** ** The shared registry *)

Lemma get_slow_spec (state : option State) (name : string) (p : process)
    (r : res ptr) (es : list event) (p' : process) :
  get_slow state name p = (r, es, p') ->
  step_spec p (match r with Ret b => Some (name, b) | _ => None end) es p'.
Proof.
  unfold get_slow, step_spec. intros Hrun.
  destruct (data (shared p) !! name) as [array |] eqn:Hlook.
  { simplify_eq. split_and!; [done | done | | by left].
    intros n b [= <- <-]. done. }
  destruct state as [st |]; [| simplify_eq; by split_and!; [| | | left]].
  destruct (Options st) as [err | start offsets lcd];
    [simplify_eq; by split_and!; [| | | left] |].
  simplify_eq. unfold registry_ok. cbn [shared data heap]. split_and!.
  - intros Hok n b. rewrite List.length_app. cbn [length].
    destruct (decide (n = name)) as [-> | Hne].
    + rewrite lookup_insert_eq. intros [= <-]. lia.
    + rewrite lookup_insert_ne by done. intros Hn. specialize (Hok n b Hn). lia.
  - intros n b Hn. rewrite lookup_insert_ne; [done |]. congruence.
  - intros n b [= <- <-]. by rewrite lookup_insert_eq.
  - right. exists name, (length (heap p)). by rewrite lookup_insert_eq.
Qed.

Lemma step_spec_stay (p : process) (got : option (string * ptr)) :
  (forall n b, got = Some (n, b) -> data (shared p) !! n = Some b) ->
  step_spec p got [] p.
Proof. intros Hgot. unfold step_spec. split_and!; [done | done | done | by left]. Qed.

Lemma perform_spec (a : action) (p : process) (o : observation)
    (es : list event) (p' : process) :
  perform a p = (o, es, p') -> step_spec p (got_of o) es p'.
Proof.
  destruct a as [ctx name | name | state name | array c]; cbn [perform].
  - unfold XSharedSegmentedIndex, get, get_fast.
    destruct (String.length name =? 0)%nat.
    { intros [= <- <- <-]. by apply step_spec_stay. }
    destruct (data (shared p) !! name) as [array |] eqn:Hlook.
    { intros [= <- <- <-]. apply step_spec_stay. by intros n b [= <- <-]. }
    destruct (get_slow (GetState ctx) name p) as [[r es'] p''] eqn:Hslow.
    intros [= <- <- <-]. apply (get_slow_spec _ _ _ _ _ _ Hslow).
  - unfold get_fast.
    destruct (data (shared p) !! name) as [array |] eqn:Hlook;
      intros [= <- <- <-]; apply step_spec_stay; [| done].
    by intros n b [= <- <-].
  - destruct (get_slow state name p) as [[r es'] p''] eqn:Hslow.
    intros [= <- <- <-]. apply (get_slow_spec _ _ _ _ _ _ Hslow).
  - unfold through. destruct (heap p !! array) as [s |] eqn:Hlook.
    + destruct (run_call c s) as [r s'].
      intros [= <- <- <-]. unfold step_spec, registry_ok.
      cbn [shared data heap]. rewrite length_insert.
      split_and!; [done | done | done | by left].
    + intros [= <- <- <-]. by apply step_spec_stay.
Qed.

Lemma constructed_for_app (name : string) (es es' : list event) :
  constructed_for name (es ++ es') =
  constructed_for name es ++ constructed_for name es'.
Proof. apply omap_app. Qed.

Lemma returned_for_cons (name : string) (o : observation) (os : list observation)
    (b : ptr) :
  b ∈ returned_for name (o :: os) <->
  got_of o = Some (name, b) \/ b ∈ returned_for name os.
Proof.
  unfold returned_for. cbn [omap list_omap].
  destruct o as [n [array | f |] | n | r]; cbn [got_of];
    try (split; [by right | by intros [[=] |]]).
  destruct (decide (n = name)) as [-> | Hne].
  - rewrite elem_of_cons. split.
    + intros [-> | ?]; auto.
    + intros [[= ->] | ?]; auto.
  - split; [by right |]. intros [[= -> ->] | ?]; done.
Qed.

(** A history keeps every entry of the registry, constructs nothing for
    a name that has an entry, constructs at most one instance per name,
    and ends with every returned pointer and every constructed
    instance stored under its name. *)
Lemma history_spec (acts : list action) :
  forall (p : process) (os : list observation) (es : list event) (p' : process),
    history acts p = (os, es, p') ->
    (registry_ok p -> registry_ok p') /\
    (forall n b, data (shared p) !! n = Some b -> data (shared p') !! n = Some b) /\
    (forall n b, b ∈ returned_for n os -> data (shared p') !! n = Some b) /\
    (forall n b, b ∈ constructed_for n es -> data (shared p') !! n = Some b) /\
    (forall n, is_Some (data (shared p) !! n) -> constructed_for n es = []) /\
    (forall n, (length (constructed_for n es) <= 1)%nat).
Proof.
  induction acts as [| a acts IH]; intros p os es p' Hrun.
  - cbn in Hrun. simplify_eq.
    split_and!; try done.
    + intros n b Hin. by apply elem_of_nil in Hin.
    + intros n b Hin. by apply elem_of_nil in Hin.
    + intros n. cbn. lia.
  - cbn [history] in Hrun.
    destruct (perform a p) as [[o es1] p1] eqn:Hstep.
    destruct (history acts p1) as [[os2 es2] p2] eqn:Hrest.
    simplify_eq.
    destruct (perform_spec _ _ _ _ _ Hstep) as (Hok1 & Hmono1 & Hgot1 & Hev1).
    destruct (IH _ _ _ _ Hrest) as (Hok2 & Hmono2 & Hret2 & Hcon2 & Hnone2 & Hone2).
    assert (forall n, is_Some (data (shared p) !! n) -> constructed_for n es1 = [])
      as Hnone1.
    { intros n [b Hb]. destruct Hev1 as [-> | (m & c & -> & Hm & _)]; [done |].
      unfold constructed_for. cbn [omap list_omap].
      destruct (decide (m = n)) as [-> |]; [congruence | done]. }
    split_and!.
    + auto.
    + auto.
    + intros n b [Hgot | Hin]%returned_for_cons; eauto.
    + intros n b. rewrite constructed_for_app, elem_of_app.
      intros [Hin | Hin]; [| eauto].
      destruct Hev1 as [-> | (m & c & -> & _ & Hm)]; [by apply elem_of_nil in Hin |].
      unfold constructed_for in Hin. cbn [omap list_omap] in Hin.
      destruct (decide (m = n)) as [-> |]; [| by apply elem_of_nil in Hin].
      apply list_elem_of_singleton in Hin as ->. eauto.
    + intros n [b Hb]. rewrite constructed_for_app, Hnone1 by eauto.
      apply Hnone2. eauto.
    + intros n. rewrite constructed_for_app.
      destruct Hev1 as [-> | (m & c & -> & _ & Hm)]; [apply Hone2 |].
      unfold constructed_for at 1. cbn [omap list_omap].
      destruct (decide (m = n)) as [-> |]; [| apply Hone2].
      rewrite Hnone2 by eauto. cbn. lia.
Qed.

Lemma history_app (acts1 acts2 : list action) :
  forall p : process,
    history (acts1 ++ acts2) p =
    let '(os1, es1, p1) := history acts1 p in
    let '(os2, es2, p2) := history acts2 p1 in
    (os1 ++ os2, es1 ++ es2, p2).
Proof.
  induction acts1 as [| a acts1 IH]; intros p.
  - cbn. by destruct (history acts2 p) as [[os2 es2] p2].
  - cbn [app history]. destruct (perform a p) as [[o es] p0].
    rewrite IH. destruct (history acts1 p0) as [[os1 es1] p1].
    destruct (history acts2 p1) as [[os2 es2] p2].
    by rewrite app_assoc.
Qed.

Lemma New_registry_ok : registry_ok New.
Proof. intros name array. cbn. by rewrite lookup_empty. Qed.

(** C6. Take any history of a process started by [New]: calls of
    [XSharedSegmentedIndex], navigation calls, and critical sections of
    racing callers, in any order. For a call of
    [XSharedSegmentedIndex ctx name] in it that returns [array]: the
    name is not empty; the whole history constructs at most one instance
    for [name]; [array] is stored under [name] after the call and still
    at the end, and points into the heap; nothing is constructed for
    [name] after the call; and every pointer returned for [name] before
    or after the call is [array]. *)
Theorem one_instance_per_name (name : string) (before after : list action)
    (ctx : Context) (array : ptr) :
  let h1 := history before New in
  let c := XSharedSegmentedIndex ctx name (snd h1) in
  let h3 := history after (snd c) in
  fst (fst c) = Ret array ->
  name <> EmptyString /\
  (length (constructed_for name
             (snd (fst h1) ++ snd (fst c) ++ snd (fst h3))) <= 1)%nat /\
  data (shared (snd c)) !! name = Some array /\
  is_Some (heap (snd c) !! array) /\
  data (shared (snd h3)) !! name = Some array /\
  is_Some (heap (snd h3) !! array) /\
  constructed_for name (snd (fst h3)) = [] /\
  (forall b, b ∈ returned_for name (fst (fst h1)) -> b = array) /\
  (forall b, b ∈ returned_for name (fst (fst h3)) -> b = array).
Proof.
  intros h1 c h3 Hret.
  destruct h1 as [[os1 es1] p1] eqn:Hh1.
  destruct c as [[r es] p2] eqn:Hc.
  destruct h3 as [[os3 es3] p3] eqn:Hh3.
  subst h1 c h3. cbn [fst snd] in *. subst r.
  destruct (history_spec _ _ _ _ _ Hh1) as (Hok1 & _ & Hret1 & _ & _ & _).
  destruct (history_spec _ _ _ _ _ Hh3) as (Hok3 & Hmono3 & Hret3 & _ & Hnone3 & _).
  assert (perform (DoShared ctx name) p1 = (Got name (Ret array), es, p2))
    as Hstep by (cbn [perform]; by rewrite Hc).
  destruct (perform_spec _ _ _ _ _ Hstep) as (Hok2 & Hmono2 & Hgot2 & _).
  specialize (Hgot2 name array eq_refl).
  pose proof (Hok2 (Hok1 New_registry_ok)) as Hp2.
  split_and!.
  - intros ->. by cbn in Hc.
  - assert (history (before ++ DoShared ctx name :: after) New =
            (os1 ++ Got name (Ret array) :: os3, es1 ++ es ++ es3, p3)) as Hall.
    { rewrite history_app, Hh1. cbn [history]. by rewrite Hstep, Hh3. }
    destruct (history_spec _ _ _ _ _ Hall) as (_ & _ & _ & _ & _ & Hone).
    apply Hone.
  - done.
  - apply lookup_lt_is_Some. by apply (Hp2 name).
  - by apply Hmono3.
  - apply lookup_lt_is_Some. apply (Hok3 Hp2 name). by apply Hmono3.
  - apply Hnone3. eauto.
  - intros b Hb. apply Hret1, Hmono2 in Hb. congruence.
  - intros b Hb. apply Hret3 in Hb. specialize (Hmono3 _ _ Hgot2). congruence.
Qed.

Lemma one_instance_per_name_witness :
  "users" <> EmptyString /\
  (length (constructed_for "users"
             (snd (fst (history racing_callers New)) ++
              snd (fst late_caller) ++
              snd (fst (history later_callers (snd late_caller))))) <= 1)%nat /\
  data (shared (snd late_caller)) !! "users" = Some 0%nat /\
  is_Some (heap (snd late_caller) !! 0%nat) /\
  data (shared (snd (history later_callers (snd late_caller)))) !! "users" =
    Some 0%nat /\
  is_Some (heap (snd (history later_callers (snd late_caller))) !! 0%nat) /\
  constructed_for "users"
    (snd (fst (history later_callers (snd late_caller)))) = [] /\
  (forall b, b ∈ returned_for "users" (fst (fst (history racing_callers New))) ->
             b = 0%nat) /\
  (forall b, b ∈ returned_for "users"
                   (fst (fst (history later_callers (snd late_caller)))) ->
             b = 0%nat).
Proof.
  apply (one_instance_per_name "users" racing_callers later_callers None 0%nat).
  vm_compute. reflexivity.
Defined.

(** C7. For every context and every process, the call with the empty
    name panics with the error value of the constructor, constructs
    nothing and leaves the process as it was. *)
Theorem empty_name_is_refused (ctx : Context) (p : process) :
  XSharedSegmentedIndex ctx EmptyString p =
    (Panic (ErrorValue empty_name_error), [], p).
Proof. reflexivity. Qed.

(** * Further properties of the index *)

(** At most one scaled index brackets a target. *)
Lemma position_bracket_unique (st : Z) (offs : list Z) (value k k' : Z) :
  0 <= st -> offs <> [] -> Forall (fun o => 0 < o) offs ->
  0 <= k -> position st offs k <= value < position st offs (k + 1) ->
  0 <= k' -> position st offs k' <= value < position st offs (k' + 1) ->
  k' = k.
Proof.
  intros Hst Hne Hpos Hk Hb Hk' Hb'.
  pose proof (position_bracket_largest st offs value Hst Hne Hpos k k'
                Hk ltac:(lia) Hk' ltac:(lia)).
  pose proof (position_bracket_largest st offs value Hst Hne Hpos k' k
                Hk' ltac:(lia) Hk ltac:(lia)).
  lia.
Qed.

(** X1. For a striping triple and targets [0 <= value <= value'], from
    any cursors: both calls of [GoTo] return; the pair returned for
    [value] has [0 <= Scaled <= Unscaled <= value]; and the pair returned
    for the larger target is not smaller in either component. *)
Theorem GoTo_monotone (st lc : Z) (offs : list Z) (value value' sc un sc' un' : Z) :
  striped st lc offs ->
  0 <= value <= value' ->
  value' <= Int64.max_int ->
  exists r s1 r' s1',
    GoTo value (mkSegmentedIndex st lc offs sc un) = (Ret r, s1) /\
    GoTo value' (mkSegmentedIndex st lc offs sc' un') = (Ret r', s1') /\
    0 <= Scaled r <= Unscaled r /\
    Unscaled r <= value /\
    Scaled r <= Scaled r' /\
    Unscaled r <= Unscaled r'.
Proof.
  intros Hstriped Hv Hv'.
  destruct (GoTo_seek st lc offs value Hstriped ltac:(lia) sc un)
    as (k & Hk & Hrun & Hb).
  destruct (GoTo_seek st lc offs value' Hstriped ltac:(lia) sc' un')
    as (k' & Hk' & Hrun' & Hb').
  destruct Hstriped as [[Hst Hlc Hpos Hsum Hfits] Hne Hlast].
  assert (k <= k') as Hkk'.
  { apply (position_bracket_largest st offs value' Hst Hne Hpos k' k); lia. }
  pose proof (position_monotone st offs 0 k Hst Hne Hpos ltac:(lia) ltac:(lia))
    as H0k.
  pose proof (position_monotone st offs k k' Hst Hne Hpos ltac:(lia) ltac:(lia))
    as Hkk.
  rewrite position_0 in H0k.
  do 4 eexists. split_and!; [exact Hrun | exact Hrun' | ..];
    cbn [Scaled Unscaled]; lia.
Qed.

Lemma GoTo_monotone_witness :
  exists r s1 r' s1',
    GoTo 4 (mkSegmentedIndex 0 3 [2; 1] 0 0) = (Ret r, s1) /\
    GoTo 7 (mkSegmentedIndex 0 3 [2; 1] 9 9) = (Ret r', s1') /\
    0 <= Scaled r <= Unscaled r /\
    Unscaled r <= 4 /\
    Scaled r <= Scaled r' /\
    Unscaled r <= Unscaled r'.
Proof.
  apply (GoTo_monotone 0 3 [2; 1] 4 7 0 0 9 9).
  - exact striped_example.
  - vm_compute. split; discriminate.
  - vm_compute. discriminate.
Defined.

(** X2. For a striping triple and a target with
    [0 <= value] and [value + lcd <= 2^63 - 1]: [GoTo value] followed by
    [Next] returns the element right after the one [GoTo] returned, and
    the target lies between the two: [GoTo]'s [Unscaled] is at most
    [value] and [Next]'s is beyond it. *)
Theorem GoTo_then_Next (st lc : Z) (offs : list Z) (value sc un : Z) :
  striped st lc offs ->
  0 <= value ->
  value + lc <= Int64.max_int ->
  exists r s1 r' s2,
    GoTo value (mkSegmentedIndex st lc offs sc un) = (Ret r, s1) /\
    Next s1 = (Ret r', s2) /\
    Scaled r' = Scaled r + 1 /\
    Unscaled r <= value < Unscaled r' /\
    Unscaled r' <= value + lc.
Proof.
  intros Hstriped Hv Hroom.
  pose proof Hstriped as [[Hst Hlc Hpos Hsum Hfits] Hne Hlast].
  destruct (GoTo_seek st lc offs value Hstriped ltac:(lia) sc un)
    as (k & Hk & Hrun & Hb).
  pose proof (position_monotone st offs 0 k Hst Hne Hpos ltac:(lia) ltac:(lia))
    as H0k.
  rewrite position_0 in H0k.
  pose proof (position_succ st offs k Hk) as Hsucc.
  pose proof (offset_at_upper offs (k - 1) Hne Hpos) as Hoff.
  pose proof (prefix_sum_lower offs Hpos (length offs - 1) ltac:(lia)) as Hlow.
  assert (position st offs (k + 1) <= value + lc) as Hnext
    by (destruct (k =? 0); lia).
  set (s1 := mkSegmentedIndex st lc offs k (position st offs k)).
  assert (Next s1 =
            (Ret {| Scaled := k + 1; Unscaled := position st offs (k + 1) |},
             mkSegmentedIndex st lc offs (k + 1) (position st offs (k + 1))))
    as HNext.
  { assert (Int64.add k 1 = k + 1) as Hk1 by Int64Facts.wrap_lia.
    destruct (Z.eqb_spec k 0) as [-> | Hk0].
    - rewrite Next_first by done. subst s1.
      cbn [start lcd offsets scaled unscaled].
      assert (Int64.add (position st offs 0) (Int64.add st 1) =
              position st offs (0 + 1)) as ->; [| done].
      rewrite Hsucc, position_0. Int64Facts.wrap_lia.
    - rewrite Next_later by (subst s1; cbn; (done || (Int64Facts.unwrap; lia))).
      subst s1. cbn [start lcd offsets scaled unscaled].
      assert (Int64.add (position st offs k) (offset_at offs (k - 1)) =
              position st offs (k + 1)) as ->; [| by rewrite Hk1].
      rewrite Hsucc. Int64Facts.wrap_lia. }
  do 4 eexists. split_and!; [exact Hrun | exact HNext | ..];
    cbn [Scaled Unscaled]; lia.
Qed.

Lemma GoTo_then_Next_witness :
  exists r s1 r' s2,
    GoTo 5 (mkSegmentedIndex 0 3 [2; 1] 0 0) = (Ret r, s1) /\
    Next s1 = (Ret r', s2) /\
    Scaled r' = Scaled r + 1 /\
    Unscaled r <= 5 < Unscaled r' /\
    Unscaled r' <= 5 + 3.
Proof.
  apply (GoTo_then_Next 0 3 [2; 1] 5 0 0).
  - exact striped_example.
  - vm_compute. discriminate.
  - vm_compute. discriminate.
Defined.

(** X3. For a striping triple, in a reachable state whose position fits
    an [int64]: [GoTo] at the cursor's own [unscaled] returns the
    cursor's pair and leaves the receiver as it is. *)
Theorem GoTo_own_position (st lc : Z) (offs : list Z) (s : SegmentedIndex) :
  striped st lc offs ->
  reachable st lc offs s ->
  position st offs (scaled s) <= Int64.max_int ->
  GoTo (unscaled s) s =
    (Ret {| Scaled := scaled s; Unscaled := unscaled s |}, s).
Proof.
  intros Hstriped Hreach Hfit.
  destruct (reachable_invariant st lc offs s Hstriped Hreach)
    as (Hs & Hl & Ho & Hk & Hu).
  pose proof Hstriped as [[Hst Hlc Hpos Hsum Hfits] Hne Hlast].
  destruct s as [st' lc' offs' k u].
  cbn [start lcd offsets scaled unscaled] in *. subst st' lc' offs'.
  pose proof (position_monotone st offs 0 k Hst Hne Hpos ltac:(lia) ltac:(lia))
    as H0k.
  rewrite position_0 in H0k.
  assert (u = position st offs k) as ->.
  { rewrite Hu. apply Int64Facts.wrap_small. Int64Facts.unwrap. lia. }
  destruct (GoTo_seek st lc offs (position st offs k) Hstriped ltac:(lia)
              k (position st offs k)) as (k' & Hk' & Hrun & Hb).
  pose proof (position_increasing st offs k Hst Hne Hpos ltac:(lia)) as Hinc.
  assert (k' = k) as ->.
  { apply (position_bracket_unique st offs (position st offs k)); (done || lia). }
  exact Hrun.
Qed.

Lemma GoTo_own_position_witness :
  GoTo (unscaled (mkSegmentedIndex 0 3 [2; 1] 3 4)) (mkSegmentedIndex 0 3 [2; 1] 3 4) =
    (Ret {| Scaled := scaled (mkSegmentedIndex 0 3 [2; 1] 3 4);
            Unscaled := unscaled (mkSegmentedIndex 0 3 [2; 1] 3 4) |},
     mkSegmentedIndex 0 3 [2; 1] 3 4).
Proof.
  apply (GoTo_own_position 0 3 [2; 1]).
  - exact striped_example.
  - apply (reachable_GoTo 0 3 [2; 1] (NewSegmentedIndex 0 3 [2; 1]) 5
             {| Scaled := 3; Unscaled := 4 |}).
    + apply reachable_New.
    + vm_compute. split; discriminate.
    + vm_compute. reflexivity.
  - vm_compute. discriminate.
Defined.

(** ** Periodicity *)

(** One more cycle of offsets adds the cycle's sum. *)
Lemma walked_shift (offs : list Z) (j : nat) :
  offs <> [] ->
  sumZ (offset_at offs <$> seqZ 0 (Z.of_nat (j + length offs))) =
  sumZ (offset_at offs <$> seqZ 0 (Z.of_nat j)) + sumZ offs.
Proof.
  intros Hne.
  assert (length offs <> 0)%nat as Hn by (destruct offs; [done | cbn; lia]).
  pose proof (Nat.div_mod_eq j (length offs)) as Hdiv.
  pose proof (Nat.mod_upper_bound j (length offs) Hn) as Hr.
  rewrite (walked_cyclic offs (j + length offs) (S (j / length offs))
             (j mod length offs)) by lia.
  rewrite (walked_cyclic offs j (j / length offs) (j mod length offs)) by lia.
  lia.
Qed.

Lemma position_shift (st : Z) (offs : list Z) (k : Z) :
  offs <> [] -> 1 <= k ->
  position st offs (k + len offs) = position st offs k + sumZ offs.
Proof.
  intros Hne Hk. pose proof (len_pos offs Hne) as Hlen. unfold position.
  destruct (Z.eqb_spec (k + len offs) 0) as [H0 | _]; [lia |].
  destruct (Z.eqb_spec k 0) as [H0 | _]; [lia |].
  replace (k + len offs - 1)
    with (Z.of_nat (Z.to_nat (k - 1) + length offs)) by (unfold len; lia).
  rewrite walked_shift by done.
  rewrite Z2Nat.id by lia. lia.
Qed.

(** [Next] in a state that sits on a position. *)
Lemma Next_at_position (st lc : Z) (offs : list Z) (k : Z) :
  offs <> [] -> 0 <= k ->
  0 <= position st offs (k + 1) <= Int64.max_int ->
  k < Int64.max_int ->
  Next (mkSegmentedIndex st lc offs k (position st offs k)) =
    (Ret {| Scaled := k + 1; Unscaled := position st offs (k + 1) |},
     mkSegmentedIndex st lc offs (k + 1) (position st offs (k + 1))).
Proof.
  intros Hne Hk Hfit Hkmax.
  pose proof (position_succ st offs k Hk) as Hsucc.
  assert (Int64.add k 1 = k + 1) as Hk1 by Int64Facts.wrap_lia.
  destruct (Z.eqb_spec k 0) as [-> | Hk0].
  - rewrite Next_first by done. cbn [start lcd offsets scaled unscaled].
    assert (Int64.add (position st offs 0) (Int64.add st 1) =
            position st offs (0 + 1)) as ->; [| done].
    rewrite Hsucc in Hfit |- *. rewrite position_0 in Hfit |- *.
    Int64Facts.wrap_lia.
  - rewrite Next_later by (cbn; (done || (Int64Facts.unwrap; lia))).
    cbn [start lcd offsets scaled unscaled].
    assert (Int64.add (position st offs k) (offset_at offs (k - 1)) =
            position st offs (k + 1)) as ->; [| by rewrite Hk1].
    rewrite Hsucc in Hfit |- *. Int64Facts.wrap_lia.
Qed.

(** [m] calls of [Next] from a position, while the positions fit. *)
Lemma Next_many_at_position (st lc : Z) (offs : list Z) (m : nat) :
  0 <= st -> offs <> [] -> Forall (fun o => 0 < o) offs ->
  forall k : Z,
    0 <= k ->
    position st offs (k + Z.of_nat m) <= Int64.max_int ->
    run_calls (replicate m CallNext)
      (mkSegmentedIndex st lc offs k (position st offs k)) =
    mkSegmentedIndex st lc offs (k + Z.of_nat m) (position st offs (k + Z.of_nat m)).
Proof.
  intros Hst Hne Hpos. unfold run_calls.
  induction m as [| m IH]; intros k Hk Hfit.
  - cbn [replicate foldl]. by replace (k + Z.of_nat 0) with k by lia.
  - pose proof (position_monotone st offs 0 k Hst Hne Hpos ltac:(lia) ltac:(lia))
      as H0k.
    pose proof (position_monotone st offs (k + 1) (k + Z.of_nat (S m))
                  Hst Hne Hpos ltac:(lia) ltac:(lia)) as Hk1.
    pose proof (position_monotone st offs 0 (k + Z.of_nat (S m))
                  Hst Hne Hpos ltac:(lia) ltac:(lia)) as H0m.
    pose proof (position_monotone st offs 0 (k + 1)
                  Hst Hne Hpos ltac:(lia) ltac:(lia)) as H0k1.
    rewrite position_0 in H0k, H0m, H0k1.
    cbn [replicate foldl run_call].
    rewrite Next_at_position by (done || (Int64Facts.unwrap; lia)). cbn [snd].
    rewrite IH; [| lia |].
    + by replace (k + 1 + Z.of_nat m) with (k + Z.of_nat (S m)) by lia.
    + by replace (k + 1 + Z.of_nat m) with (k + Z.of_nat (S m)) by lia.
Qed.

(** X4. For a striping triple and a target with [0 <= value] and
    [value + lcd <= 2^63 - 1]: moving the target one cycle length
    further moves the [Scaled] that [GoTo] returns by [len(offsets)],
    and, once an element was found, its [Unscaled] by [lcd]. *)
Theorem GoTo_one_cycle_further (st lc : Z) (offs : list Z) (value sc un sc' un' : Z) :
  striped st lc offs ->
  0 <= value ->
  value + lc <= Int64.max_int ->
  exists r s1 r' s1',
    GoTo value (mkSegmentedIndex st lc offs sc un) = (Ret r, s1) /\
    GoTo (value + lc) (mkSegmentedIndex st lc offs sc' un') = (Ret r', s1') /\
    Scaled r' = Scaled r + len offs /\
    (1 <= Scaled r -> Unscaled r' = Unscaled r + lc).
Proof.
  intros Hstriped Hv Hroom.
  pose proof Hstriped as [[Hst Hlc Hpos Hsum Hfits] Hne Hlast].
  destruct (GoTo_seek st lc offs value Hstriped ltac:(lia) sc un)
    as (k & Hk & Hrun & Hb).
  destruct (GoTo_seek st lc offs (value + lc) Hstriped ltac:(lia) sc' un')
    as (k' & Hk' & Hrun' & Hb').
  pose proof (len_pos offs Hne) as Hlen.
  assert (k' = k + len offs) as ->.
  { apply (position_bracket_unique st offs (value + lc)); try (done || lia).
    rewrite <- Hsum in *.
    replace (k + len offs + 1) with (k + 1 + len offs) by lia.
    rewrite (position_shift st offs (k + 1)) by (done || lia).
    destruct (decide (k = 0)) as [-> | Hk0].
    - pose proof (position_cyclic st offs 0 (length offs - 1) ltac:(unfold len in *; lia))
        as Hn.
      replace (Z.of_nat (0 * length offs + (length offs - 1)) + 1)
        with (0 + len offs) in Hn by (unfold len in *; lia).
      rewrite Hn. rewrite position_0 in Hb. lia.
    - rewrite (position_shift st offs k) by (done || lia). lia. }
  do 4 eexists. split_and!; [exact Hrun | exact Hrun' | done |].
  cbn [Scaled Unscaled]. intros Hsome.
  rewrite (position_shift st offs k) by (done || lia). lia.
Qed.

Lemma GoTo_one_cycle_further_witness :
  exists r s1 r' s1',
    GoTo 4 (mkSegmentedIndex 0 3 [2; 1] 0 0) = (Ret r, s1) /\
    GoTo (4 + 3) (mkSegmentedIndex 0 3 [2; 1] 0 0) = (Ret r', s1') /\
    Scaled r' = Scaled r + len [2; 1] /\
    (1 <= Scaled r -> Unscaled r' = Unscaled r + 3).
Proof.
  apply (GoTo_one_cycle_further 0 3 [2; 1] 4 0 0 0 0).
  - exact striped_example.
  - vm_compute. discriminate.
  - vm_compute. discriminate.
Defined.

(** X9. For a striping triple, in a reachable state with at least one
    element visited: [len(offsets)] calls of [Next] in a row move
    [scaled] by [len(offsets)] and [unscaled] by exactly [lcd], as long
    as the position reached fits an [int64]. *)
Theorem Next_full_cycle (st lc : Z) (offs : list Z) (s : SegmentedIndex) :
  striped st lc offs ->
  reachable st lc offs s ->
  1 <= scaled s ->
  position st offs (scaled s + len offs) <= Int64.max_int ->
  run_calls (replicate (length offs) CallNext) s =
    mkSegmentedIndex st lc offs (scaled s + len offs) (unscaled s + lc).
Proof.
  intros Hstriped Hreach Hsome Hfit.
  destruct (reachable_invariant st lc offs s Hstriped Hreach)
    as (Hs & Hl & Ho & Hk & Hu).
  pose proof Hstriped as [[Hst Hlc Hpos Hsum Hfits] Hne Hlast].
  pose proof (len_pos offs Hne) as Hlen.
  destruct s as [st' lc' offs' k u].
  cbn [start lcd offsets scaled unscaled] in *. subst st' lc' offs'.
  pose proof (position_monotone st offs 0 k Hst Hne Hpos ltac:(lia) ltac:(lia))
    as H0k.
  pose proof (position_monotone st offs k (k + len offs) Hst Hne Hpos
                ltac:(lia) ltac:(lia)) as Hkn.
  rewrite position_0 in H0k.
  assert (u = position st offs k) as ->.
  { rewrite Hu. apply Int64Facts.wrap_small. Int64Facts.unwrap. lia. }
  rewrite (Next_many_at_position st lc offs (length offs) Hst Hne Hpos k)
    by (done || lia).
  fold (len offs). by rewrite (position_shift st offs k), Hsum by (done || lia).
Qed.

Lemma Next_full_cycle_witness :
  run_calls (replicate (length [2; 1]) CallNext) (mkSegmentedIndex 0 3 [2; 1] 3 4) =
    mkSegmentedIndex 0 3 [2; 1]
      (scaled (mkSegmentedIndex 0 3 [2; 1] 3 4) + len [2; 1])
      (unscaled (mkSegmentedIndex 0 3 [2; 1] 3 4) + 3).
Proof.
  apply (Next_full_cycle 0 3 [2; 1]).
  - exact striped_example.
  - apply (reachable_GoTo 0 3 [2; 1] (NewSegmentedIndex 0 3 [2; 1]) 5
             {| Scaled := 3; Unscaled := 4 |}).
    + apply reachable_New.
    + vm_compute. split; discriminate.
    + vm_compute. reflexivity.
  - vm_compute. discriminate.
  - vm_compute. discriminate.
Defined.

(** ** Outside the documented domain *)

(** X5. With a non-negative start, positive offsets adding up to a
    positive [lcd], and a negative [int64] target: [GoTo] never enters
    its loop; it returns [scaled = (value / lcd) * len(offsets)] with
    Go's truncating division, which is 0 (with [unscaled = 0]) for
    [-lcd < value] and negative from [value <= -lcd] on, then with
    [unscaled = (value / lcd) * lcd + start + 1]. *)
Theorem GoTo_negative_target (st lc : Z) (offs : list Z) (value sc un : Z) :
  walkable st lc offs ->
  Int64.min_int <= value < 0 ->
  let k := (value ÷ lc) * len offs in
  let u := if k =? 0 then 0 else (value ÷ lc) * lc + st + 1 in
  GoTo value (mkSegmentedIndex st lc offs sc un) =
    (Ret {| Scaled := k; Unscaled := u |}, mkSegmentedIndex st lc offs k u) /\
  k <= 0 /\
  (- lc < value -> k = 0) /\
  (value <= - lc -> k < 0).
Proof.
  intros Hwalk Hv k u.
  pose proof (walkable_nonempty _ _ _ Hwalk) as Hne.
  pose proof (len_pos offs Hne) as Hlen.
  destruct Hwalk as [Hst Hlc Hpos Hsum Hfits].
  pose proof (sumZ_positive offs Hpos) as Hn. fold (len offs) in Hn.
  pose proof (Z.quot_rem' value lc) as Hqr.
  pose proof (Z.rem_bound_abs value lc ltac:(lia)) as Hrem.
  pose proof (Z.rem_nonpos value lc ltac:(lia) ltac:(lia)) as Hrem'.
  set (q := value ÷ lc) in *. set (m := Z.rem value lc) in *.
  assert (q <= 0) as Hq by nia.
  assert (value <= q * lc) as Hqlc by lia.
  assert (q * lc <= q * len offs) as Hqn by nia.
  assert (- lc < value -> q = 0) as Hsmall by (intros; nia).
  assert (value <= - lc -> q < 0) as Hbig by (intros; nia).
  split_and!; [| subst k; nia | intros; subst k; rewrite Hsmall by done; lia
               | intros; subst k; specialize (Hbig ltac:(done)); nia].
  unfold GoTo, M_bind, self, set_scaled, set_unscaled, eval, result, M_ret.
  cbn [start lcd offsets scaled unscaled].
  unfold quot64. destruct (Z.eqb_spec lc 0) as [H0 | _]; [lia |]. fold q.
  assert (Int64.wrap q = q) as ->
    by (apply Int64Facts.wrap_small; Int64Facts.unwrap; lia).
  cbn [start lcd offsets scaled unscaled].
  rewrite GoTo_loop_S. cbn [start lcd offsets scaled unscaled].
  unfold rem64. destruct (Z.eqb_spec lc 0) as [H0 | _]; [lia |]. fold m.
  destruct (Z.ltb_spec st m) as [Hlt | _]; [lia |].
  cbn [start lcd offsets scaled unscaled].
  change (0 <? 0) with false. cbn match.
  assert (Int64.mul q (len offs) = k) as ->.
  { subst k. unfold Int64.mul. apply Int64Facts.wrap_small.
    Int64Facts.unwrap. lia. }
  destruct (Z.ltb_spec 0 k) as [Hpos' | _]; [subst k; nia |].
  cbn [start lcd offsets scaled unscaled]. subst u.
  destruct (Z.eqb_spec k 0) as [Hk0 | Hk0];
    cbn [start lcd offsets scaled unscaled]; [done |].
  assert (Int64.add (Int64.add (Int64.mul q lc) st) 1 = q * lc + st + 1) as ->;
    [| done].
  Int64Facts.wrap_lia.
Qed.

Lemma GoTo_negative_target_witness :
  GoTo (-7) (mkSegmentedIndex 0 3 [2; 1] 3 4) =
    (Ret {| Scaled := -4; Unscaled := -5 |}, mkSegmentedIndex 0 3 [2; 1] (-4) (-5)) /\
  -4 <= 0 /\
  (- 3 < -7 -> -4 = 0) /\
  (-7 <= - 3 -> -4 < 0).
Proof.
  apply (GoTo_negative_target 0 3 [2; 1] (-7) 3 4).
  - exact (striped_walkable _ _ _ striped_example).
  - vm_compute. split; [discriminate | reflexivity].
Defined.

(** X6. [NewSegmentedIndex] checks nothing, and the methods find out
    late. With [lcd = 0] every [GoTo] panics on the division and leaves
    the receiver untouched. With no offsets the first [Next] returns
    [(1, start + 1)] and every later one panics on the modulo by
    [len(offsets) = 0], the receiver staying at [scaled = 1]; and [GoTo]
    returns [(0, 0)] when the start is not before [value % lcd], and
    otherwise panics on [offsets[0]] having already overwritten the
    cursor. *)
Theorem unchecked_parameters :
  (forall (value : Z) (s : SegmentedIndex),
     lcd s = 0 -> GoTo value s = (Panic DivideByZero, s)) /\
  (forall (st lc : Z) (n : nat),
     Next_results (S n) (NewSegmentedIndex st lc []) =
       Ret {| Scaled := 1; Unscaled := Int64.add st 1 |} ::
       replicate n (Panic DivideByZero)) /\
  (forall (st lc value sc un : Z),
     lc <> 0 ->
     GoTo value (mkSegmentedIndex st lc [] sc un) =
       if st <? Z.rem value lc
       then (Panic IndexOutOfRange,
             mkSegmentedIndex st lc [] 1
               (Int64.add (Int64.add (Int64.mul (Int64.wrap (value ÷ lc)) lc) st) 1))
       else (Ret {| Scaled := 0; Unscaled := 0 |}, mkSegmentedIndex st lc [] 0 0)).
Proof.
  split_and!.
  - intros value s H0. unfold GoTo, M_bind, self, eval, quot64. cbn.
    by rewrite H0.
  - intros st lc n. cbn [Next_results].
    rewrite Next_first by done. cbn [NewSegmentedIndex start lcd offsets scaled unscaled].
    assert (Int64.add 0 (Int64.add st 1) = Int64.add st 1) as ->
      by Int64Facts.wrap_lia.
    change (Int64.add 0 1) with 1. f_equal.
    induction n as [| n IH]; [done |].
    cbn [Next_results replicate]. rewrite <- IH. clear IH.
    by unfold Next, M_bind, self, eval, rem64, len.
  - intros st lc value sc un Hlc.
    unfold GoTo, M_bind, self, set_scaled, set_unscaled, eval, result, M_ret.
    cbn [start lcd offsets scaled unscaled].
    unfold quot64. destruct (Z.eqb_spec lc 0) as [H0 | _]; [done |].
    cbn [start lcd offsets scaled unscaled].
    rewrite GoTo_loop_S. cbn [start lcd offsets scaled unscaled].
    unfold rem64. destruct (Z.eqb_spec lc 0) as [H0 | _]; [done |].
    unfold len. cbn [length]. change (Z.of_nat 0) with 0.
    assert (Int64.mul (Int64.wrap (value ÷ lc)) 0 = 0) as ->
      by (unfold Int64.mul; by rewrite Z.mul_0_r).
    destruct (st <? Z.rem value lc); [done |].
    by cbn [start lcd offsets scaled unscaled].
Qed.

Lemma unchecked_parameters_witness :
  GoTo 5 (mkSegmentedIndex 0 0 [2; 1] 3 4) =
    (Panic DivideByZero, mkSegmentedIndex 0 0 [2; 1] 3 4) /\
  GoTo 5 (mkSegmentedIndex 0 3 [] 7 7) =
    (if 0 <? Z.rem 5 3
     then (Panic IndexOutOfRange,
           mkSegmentedIndex 0 3 [] 1
             (Int64.add (Int64.add (Int64.mul (Int64.wrap (5 ÷ 3)) 3) 0) 1))
     else (Ret {| Scaled := 0; Unscaled := 0 |}, mkSegmentedIndex 0 3 [] 0 0)).
Proof.
  split.
  - apply (proj1 unchecked_parameters 5 (mkSegmentedIndex 0 0 [2; 1] 3 4)).
    reflexivity.
  - apply (proj2 (proj2 unchecked_parameters) 0 3 5 7 7). discriminate.
Defined.

(** X7. [Prev] on a fresh instance, the case its comment leaves
    undefined: with one or two offsets it returns [scaled = -1] and
    [unscaled = -offsets[0]], Go's [-2 % len(offsets)] being 0; with
    three or more offsets that remainder is [-2] and the call panics on
    the index, leaving the receiver as it was. *)
Theorem Prev_on_fresh_instance (st lc : Z) (o : Z) (offs : list Z) :
  Prev (NewSegmentedIndex st lc (o :: offs)) =
    if (length offs <=? 1)%nat
    then (Ret {| Scaled := -1; Unscaled := Int64.sub 0 o |},
          mkSegmentedIndex st lc (o :: offs) (-1) (Int64.sub 0 o))
    else (Panic IndexOutOfRange, NewSegmentedIndex st lc (o :: offs)).
Proof.
  unfold Prev, NewSegmentedIndex, M_bind, self, set_scaled, set_unscaled,
    eval, result.
  cbn [start lcd offsets scaled unscaled].
  change (0 =? 1) with false. cbn match.
  change (Int64.sub 0 2) with (-2). change (Int64.sub 0 1) with (-1).
  unfold rem64, len. cbn [length].
  destruct (Z.eqb_spec (Z.of_nat (S (length offs))) 0) as [H0 | _]; [lia |].
  destruct offs as [| o1 [| o2 offs]]; [done | done |].
  cbn [length Nat.leb].
  assert (Z.rem (-2) (Z.of_nat (S (S (S (length offs))))) = -2) as ->.
  { change (-2) with (- (2)). rewrite Z.rem_opp_l by lia.
    by rewrite Z.rem_small by lia. }
  done.
Qed.

(** X8. With offsets that are not empty, [n] calls of [Next] on a fresh
    instance followed by [n] calls of [Prev] leave the instance as
    [NewSegmentedIndex] made it, for every [n] an [int64] can count. *)
Theorem Next_n_then_Prev_n (st lc : Z) (offs : list Z) (n : nat) :
  offs <> [] ->
  Z.of_nat n <= Int64.max_int ->
  run_calls (replicate n CallNext ++ replicate n CallPrev)
    (NewSegmentedIndex st lc offs) =
  NewSegmentedIndex st lc offs.
Proof.
  intros Hne Hn.
  assert (forall s : SegmentedIndex,
            offsets s <> [] -> cursor_in_range s ->
            0 <= scaled s -> scaled s + Z.of_nat n <= Int64.max_int ->
            run_calls (replicate n CallNext ++ replicate n CallPrev) s = s)
    as Hgen.
  { clear. induction n as [| n IH]; intros s Hne Hs H0 Hmax; [done |].
    rewrite replicate_S, replicate_S_end, app_assoc.
    unfold run_calls in *. rewrite foldl_app. cbn [app foldl run_call].
    destruct (Next_returns s Hne ltac:(lia)) as (r1 & s1 & Hrun).
    rewrite Hrun. cbn [snd].
    pose proof (Next_ranged s Hs) as Hs1. rewrite Hrun in Hs1. cbn [snd] in Hs1.
    pose proof (Next_keeps s) as (_ & _ & Ho1). rewrite Hrun in Ho1. cbn [snd] in Ho1.
    assert (scaled s1 = scaled s + 1) as Hk1.
    { destruct (decide (scaled s = 0)) as [Hz | Hz].
      - rewrite Next_first in Hrun by done. injection Hrun as _ <-.
        cbn [scaled]. Int64Facts.wrap_lia.
      - rewrite Next_later in Hrun by (done || lia). injection Hrun as _ <-.
        cbn [scaled]. Int64Facts.wrap_lia. }
    rewrite IH by (congruence || lia || done).
    by rewrite (Next_undone_by_Prev s r1 s1 Hs Hrun). }
  apply Hgen; [done | split; apply zero_in_range | done | cbn; lia].
Qed.

Lemma Next_n_then_Prev_n_witness :
  run_calls (replicate 5 CallNext ++ replicate 5 CallPrev)
    (NewSegmentedIndex 0 3 [2; 1]) =
  NewSegmentedIndex 0 3 [2; 1].
Proof.
  apply (Next_n_then_Prev_n 0 3 [2; 1] 5).
  - discriminate.
  - vm_compute. discriminate.
Defined.

(** * Further properties of the module *)

Lemma empty_name_length (name : string) :
  (String.length name =? 0)%nat = true <-> name = EmptyString.
Proof. destruct name; cbn; split; (done || intros [=]). Qed.

(** What serving one request can do to a process: nothing; construct an
    instance for a name that had none; construct a private instance; or
    run a navigation call on one instance. *)
Lemma serve_cases (q : request) (p : process) :
  serve q p = p \/
  (exists n s0,
     data (shared p) !! n = None /\
     serve q p =
       {| shared := {| data := <[n := length (heap p)]> (data (shared p)) |};
          heap := heap p ++ [s0] |}) \/
  (exists s0,
     serve q p = {| shared := shared p; heap := heap p ++ [s0] |}) \/
  (exists b c s,
     q = Registry (DoCall b c) /\ heap p !! b = Some s /\
     serve q p =
       {| shared := shared p; heap := <[b := snd (run_call c s)]> (heap p) |}).
Proof.
  assert (forall state name,
            snd (get_slow state name p) = p \/
            exists n s0,
              data (shared p) !! n = None /\
              snd (get_slow state name p) =
                {| shared := {| data := <[n := length (heap p)]> (data (shared p)) |};
                   heap := heap p ++ [s0] |}) as Hslow.
  { intros state name. unfold get_slow.
    destruct (data (shared p) !! name) as [array |] eqn:Hlook; [by left |].
    destruct state as [st |]; [| by left].
    destruct (Options st) as [err | st0 offs lc]; [by left |].
    right. by exists name, (NewSegmentedIndex st0 lc offs). }
  destruct q as [[ctx name | name | state name | b c] | ctx]; cbn [serve perform].
  - unfold XSharedSegmentedIndex, get, get_fast.
    destruct (String.length name =? 0)%nat; [by left |].
    destruct (data (shared p) !! name) as [array |]; [by left |].
    destruct (get_slow (GetState ctx) name p) as [[r es] p'] eqn:Hrun.
    specialize (Hslow (GetState ctx) name). rewrite Hrun in Hslow.
    cbn [snd] in Hslow |- *.
    destruct Hslow as [-> | Hnew]; [by left | right; by left].
  - unfold get_fast. destruct (data (shared p) !! name); by left.
  - destruct (get_slow state name p) as [[r es] p'] eqn:Hrun.
    specialize (Hslow state name). rewrite Hrun in Hslow.
    cbn [snd] in Hslow |- *.
    destruct Hslow as [-> | Hnew]; [by left | right; by left].
  - unfold through. destruct (heap p !! b) as [s |] eqn:Hb; [| by left].
    destruct (run_call c s) as [r s'] eqn:Hrun.
    do 3 right. exists b, c, s. by rewrite Hrun.
  - unfold XSegmentedIndex, GetState. destruct ctx as [st |]; [| by left].
    destruct (Options st) as [err | st0 offs lc]; [by left |].
    right. right. left. by exists (NewSegmentedIndex st0 lc offs).
Qed.

(** Serving a request keeps the entries of the registry, the pointers
    inside the heap, the names apart, and never shrinks the heap. *)
Lemma serve_keeps (q : request) (p : process) :
  (forall n b, data (shared p) !! n = Some b ->
               data (shared (serve q p)) !! n = Some b) /\
  (length (heap p) <= length (heap (serve q p)))%nat /\
  (registry_ok p -> registry_ok (serve q p)) /\
  (registry_ok p -> registry_injective p -> registry_injective (serve q p)) /\
  (forall a, registry_ok p -> (a < length (heap p))%nat ->
             (forall n, data (shared p) !! n <> Some a) ->
             forall n, data (shared (serve q p)) !! n <> Some a).
Proof.
  destruct (serve_cases q p)
    as [-> | [(n & s0 & Hnone & ->) | [(s0 & ->) | (b & c & s & _ & _ & ->)]]];
    unfold registry_ok, registry_injective; cbn [shared data heap];
    rewrite ?List.length_app, ?length_insert; cbn [length].
  - split_and!; (done || lia || eauto).
  - split_and!.
    + intros m b Hm. rewrite lookup_insert_ne; [done | congruence].
    + lia.
    + intros Hok m b. destruct (decide (n = m)) as [-> | Hne].
      * rewrite lookup_insert_eq. intros [= <-]. lia.
      * rewrite lookup_insert_ne by done. intros Hm. specialize (Hok m b Hm). lia.
    + intros Hok Hinj n1 n2 a.
      destruct (decide (n1 = n)) as [-> | Hne1], (decide (n2 = n)) as [-> | Hne2];
        rewrite ?lookup_insert_eq, ?lookup_insert_ne by done; try done.
      * intros [= <-] H2. specialize (Hok n2 _ H2). lia.
      * intros H1 [= <-]. specialize (Hok n1 _ H1). lia.
      * apply Hinj.
    + intros a Hok Ha Hfree m. destruct (decide (n = m)) as [-> | Hne].
      * rewrite lookup_insert_eq. intros [= <-]. lia.
      * rewrite lookup_insert_ne by done. apply Hfree.
  - split_and!; try (done || lia).
    intros Hok m b Hm. specialize (Hok m b Hm). lia.
  - split_and!; (done || lia || eauto).
Qed.

Lemma serve_all_keeps (qs : list request) :
  forall p : process,
    (forall n b, data (shared p) !! n = Some b ->
                 data (shared (serve_all qs p)) !! n = Some b) /\
    (length (heap p) <= length (heap (serve_all qs p)))%nat /\
    (registry_ok p -> registry_ok (serve_all qs p)) /\
    (registry_ok p -> registry_injective p ->
     registry_injective (serve_all qs p)) /\
    (forall a, registry_ok p -> (a < length (heap p))%nat ->
               (forall n, data (shared p) !! n <> Some a) ->
               forall n, data (shared (serve_all qs p)) !! n <> Some a).
Proof.
  unfold serve_all. induction qs as [| q qs IH]; intros p; [done |].
  cbn [foldl].
  destruct (serve_keeps q p) as (Hm & Hl & Hok & Hinj & Hfree).
  destruct (IH (serve q p)) as (Hm' & Hl' & Hok' & Hinj' & Hfree').
  split_and!; [eauto | lia | eauto | eauto |].
  intros a Hp Ha Hno. apply Hfree'; [eauto | lia | eauto].
Qed.

(** An instance changes only through navigation calls on its pointer. *)
Lemma serve_cell (q : request) (p : process) (a : ptr) (s : SegmentedIndex) :
  heap p !! a = Some s ->
  (exists c, q = Registry (DoCall a c) /\
             fst (fst (through a c p)) = fst (run_call c s) /\
             heap (serve q p) !! a = Some (snd (run_call c s))) \/
  ((forall c, q <> Registry (DoCall a c)) /\ heap (serve q p) !! a = Some s).
Proof.
  intros Hcell. pose proof (lookup_lt_Some _ _ _ Hcell) as Hlt.
  assert ((exists c, q = Registry (DoCall a c)) \/
          (forall c, q <> Registry (DoCall a c))) as [[c ->] | Hother].
  { destruct q as [[ctx name | name | state name | b c] | ctx];
      try (by right).
    destruct (decide (b = a)) as [-> | Hne]; [left; eauto | right].
    by intros c' [= -> _]. }
  - left. exists c. cbn [serve perform]. unfold through. rewrite Hcell.
    destruct (run_call c s) as [r s']. cbn [fst snd heap].
    by rewrite list_lookup_insert_eq.
  - right. split; [done |].
    destruct (serve_cases q p)
      as [-> | [(n & s0 & _ & ->) | [(s0 & ->) | (b & c & sb & -> & Hb & ->)]]];
      cbn [heap]; rewrite ?lookup_app_l by done; try done.
    rewrite list_lookup_insert_ne; [done |].
    intros ->. by apply (Hother c).
Qed.

(** X10. [XSharedSegmentedIndex] fails in exactly three ways, and a
    failing call stores and constructs nothing: the empty name (the
    constructor's error value); a name without an entry asked for with a
    context that carries no state (nil dereference); a name without an
    entry asked for with options [NewExecutionTuple] rejects (its error
    value). It returns in all other cases: a name that is not empty and
    either has an entry or comes with a state whose options translate. *)
Theorem shared_index_failures (ctx : Context) (name : string) (p : process) :
  (forall f es p',
     XSharedSegmentedIndex ctx name p = (Panic f, es, p') ->
     es = [] /\ p' = p /\
     ((name = EmptyString /\ f = ErrorValue empty_name_error) \/
      (name <> EmptyString /\ data (shared p) !! name = None /\
       ((ctx = None /\ f = NilDereference) \/
        (exists st err,
           ctx = Some st /\ Options st = TupleError err /\ f = ErrorValue err))))) /\
  ((exists array es p', XSharedSegmentedIndex ctx name p = (Ret array, es, p')) <->
   name <> EmptyString /\
   (is_Some (data (shared p) !! name) \/
    exists st st0 offs lc, ctx = Some st /\ Options st = StripedOffsets st0 offs lc)).
Proof.
  unfold XSharedSegmentedIndex, get, get_fast, get_slow, GetState.
  pose proof (empty_name_length name) as Hname.
  destruct (String.length name =? 0)%nat.
  { assert (name = EmptyString) as -> by by apply Hname.
    split.
    - intros f es p' [= <- <- <-]. split_and!; try done. by left.
    - split; [by intros (a & es & p' & [=]) | by intros [? _]]. }
  assert (name <> EmptyString) as Hne by (intros Heq; by apply Hname in Heq).
  destruct (data (shared p) !! name) as [array |] eqn:Hlook.
  { split; [by intros f es p' [=] |].
    split; [intros _; split; [done | left; eauto] | intros _; eauto]. }
  destruct ctx as [st |].
  - destruct (Options st) as [err | st0 offs lc] eqn:Hopt.
    + split.
      * intros f es p' [= <- <- <-]. split_and!; try done.
        right. split_and!; try done. right. eauto.
      * split; [by intros (a & es & p' & [=]) |].
        intros [_ [[a [=]] | (st' & st0 & offs & lc & [= <-] & Hopt')]].
        congruence.
    + split; [by intros f es p' [=] |].
      split; [intros _; split; [done | right; eauto 10] | intros _; eauto].
  - split.
    + intros f es p' [= <- <- <-]. split_and!; try done.
      right. split_and!; try done. by left.
    + split; [by intros (a & es & p' & [=]) |].
      by intros [_ [[a [=]] | (st' & st0 & offs & lc & [=] & _)]].
Qed.

Lemma shared_index_failures_witness :
  [] = ([] : list event) /\ New = New /\
  (("users" = EmptyString /\
    ErrorValue "bad segment" = ErrorValue empty_name_error) \/
   ("users" <> EmptyString /\ data (shared New) !! "users" = None /\
    ((Some {| Options := TupleError "bad segment" |} = None /\
      ErrorValue "bad segment" = NilDereference) \/
     (exists st err,
        Some {| Options := TupleError "bad segment" |} = Some st /\
        Options st = TupleError err /\
        ErrorValue "bad segment" = ErrorValue err)))).
Proof.
  apply (proj1 (shared_index_failures
                  (Some {| Options := TupleError "bad segment" |}) "users" New)
           (ErrorValue "bad segment") [] New).
  reflexivity.
Defined.

(** X11. Once a name has an entry, every later call of
    [XSharedSegmentedIndex] with that name returns the entry, whatever
    was served in between and whatever context the caller brings, be it
    one without a state or one whose options do not translate; the call
    constructs nothing and changes nothing. *)
Theorem cached_name_never_fails (name : string) (array : ptr) (p : process)
    (qs : list request) (ctx : Context) :
  name <> EmptyString ->
  data (shared p) !! name = Some array ->
  XSharedSegmentedIndex ctx name (serve_all qs p) =
    (Ret array, [], serve_all qs p).
Proof.
  intros Hne Hentry.
  destruct (serve_all_keeps qs p) as (Hmono & _).
  specialize (Hmono name array Hentry).
  unfold XSharedSegmentedIndex, get, get_fast.
  pose proof (empty_name_length name) as Hname.
  destruct (String.length name =? 0)%nat; [by destruct Hne; apply Hname |].
  by rewrite Hmono.
Qed.

Lemma cached_name_never_fails_witness :
  XSharedSegmentedIndex None "users"
    (serve_all [Private a_state; Registry (DoCall 0%nat CallNext)]
       (snd (history racing_callers New))) =
    (Ret 0%nat, [],
     serve_all [Private a_state; Registry (DoCall 0%nat CallNext)]
       (snd (history racing_callers New))).
Proof.
  apply (cached_name_never_fails "users" 0%nat).
  - discriminate.
  - vm_compute. reflexivity.
Defined.

Lemma serve_all_cell_params (qs : list request) :
  forall (p : process) (a : ptr) (s : SegmentedIndex),
    heap p !! a = Some s ->
    exists s', heap (serve_all qs p) !! a = Some s' /\ same_params s s'.
Proof.
  unfold serve_all. induction qs as [| q qs IH]; intros p a s Hcell.
  - exists s. split; [done | apply same_params_refl].
  - cbn [foldl].
    destruct (serve_cell q p a s Hcell) as [(c & _ & _ & Hnext) | [_ Hnext]].
    + destruct (IH _ _ _ Hnext) as (s' & Hs' & Hsame).
      exists s'. split; [done |].
      apply (same_params_trans s (snd (run_call c s))); [apply run_call_keeps | done].
    + by apply IH.
Qed.

(** X12. When [XSharedSegmentedIndex] is called with a name that has no
    entry and a state whose options translate to [(start, offsets, lcd)],
    it stores a fresh instance with these parameters and the cursor at
    [(0, 0)]; and whatever is served afterwards, by callers with whatever
    contexts, the name keeps this instance and the instance keeps these
    parameters. *)
Theorem shared_parameters_from_first_caller (name : string) (st : State)
    (st0 lc : Z) (offs : list Z) (p : process) :
  name <> EmptyString ->
  data (shared p) !! name = None ->
  Options st = StripedOffsets st0 offs lc ->
  exists array p1,
    XSharedSegmentedIndex (Some st) name p = (Ret array, [Constructed name array], p1) /\
    heap p !! array = None /\
    heap p1 !! array = Some (NewSegmentedIndex st0 lc offs) /\
    forall qs : list request,
      data (shared (serve_all qs p1)) !! name = Some array /\
      exists s, heap (serve_all qs p1) !! array = Some s /\
                start s = st0 /\ lcd s = lc /\ offsets s = offs.
Proof.
  intros Hne Hnone Hopt.
  pose proof (empty_name_length name) as Hname.
  unfold XSharedSegmentedIndex, get, get_fast, get_slow, GetState.
  destruct (String.length name =? 0)%nat; [by destruct Hne; apply Hname |].
  rewrite Hnone, Hopt.
  do 2 eexists. split; [reflexivity |].
  assert (forall s0 : SegmentedIndex, (heap p ++ [s0]) !! length (heap p) = Some s0)
    as Hnew by (intros s0; by apply list_lookup_middle).
  split_and!; [by apply lookup_ge_None_2 | cbn [heap]; apply Hnew |].
  intros qs.
  match goal with |- context [serve_all qs ?x] => set (p1 := x) end.
  destruct (serve_all_keeps qs p1) as (Hmono & _).
  split.
  - apply Hmono. subst p1. cbn [shared data]. apply lookup_insert_eq.
  - destruct (serve_all_cell_params qs p1 (length (heap p))
                (NewSegmentedIndex st0 lc offs)) as (s & Hs & Hst & Hlc & Hoffs).
    { subst p1. cbn [heap]. apply Hnew. }
    by exists s.
Qed.

Lemma shared_parameters_from_first_caller_witness :
  exists array p1,
    XSharedSegmentedIndex (Some {| Options := StripedOffsets 0 [2; 1] 3 |})
      "users" New = (Ret array, [Constructed "users" array], p1) /\
    heap New !! array = None /\
    heap p1 !! array = Some (NewSegmentedIndex 0 3 [2; 1]) /\
    forall qs : list request,
      data (shared (serve_all qs p1)) !! "users" = Some array /\
      exists s, heap (serve_all qs p1) !! array = Some s /\
                start s = 0 /\ lcd s = 3 /\ offsets s = [2; 1].
Proof.
  apply (shared_parameters_from_first_caller "users"
           {| Options := StripedOffsets 0 [2; 1] 3 |} 0 3 [2; 1] New).
  - discriminate.
  - reflexivity.
  - reflexivity.
Defined.

(** X13. In a process started by [New], whatever was served: two
    different names never hold the same instance. *)
Theorem distinct_names_distinct_instances (qs : list request) (n1 n2 : string)
    (a1 a2 : ptr) :
  data (shared (serve_all qs New)) !! n1 = Some a1 ->
  data (shared (serve_all qs New)) !! n2 = Some a2 ->
  n1 <> n2 ->
  a1 <> a2.
Proof.
  intros H1 H2 Hne ->.
  destruct (serve_all_keeps qs New) as (_ & _ & _ & Hinj & _).
  apply Hne, (Hinj New_registry_ok) with a2; [| done | done].
  intros m1 m2 a. cbn. by rewrite lookup_empty.
Qed.

Lemma distinct_names_distinct_instances_witness : (0 <> 2)%nat.
Proof.
  apply (distinct_names_distinct_instances
           [Registry (DoShared a_state "users"); Private a_state;
            Registry (DoShared a_state "items")]
           "users" "items" 0%nat 2%nat).
  - vm_compute. reflexivity.
  - vm_compute. reflexivity.
  - discriminate.
Defined.

(** X14. When [XSegmentedIndex] returns, its context carries a state
    whose options translate to some [(start, offsets, lcd)], and the
    pointer returned is a new one: it pointed at nothing before and
    points at [NewSegmentedIndex start lcd offsets] now; the registry and
    every instance that existed are as they were; and no later call of
    [XSegmentedIndex] returns this pointer again. *)
Theorem private_index_is_fresh (ctx : Context) (p : process) (array : ptr)
    (es : list event) (p' : process) :
  XSegmentedIndex ctx p = (Ret array, es, p') ->
  heap p !! array = None /\
  es = [] /\
  shared p' = shared p /\
  (forall b s, heap p !! b = Some s -> heap p' !! b = Some s) /\
  (exists st st0 offs lc,
     ctx = Some st /\ Options st = StripedOffsets st0 offs lc /\
     heap p' !! array = Some (NewSegmentedIndex st0 lc offs)) /\
  (forall qs ctx' array',
     fst (fst (XSegmentedIndex ctx' (serve_all qs p'))) = Ret array' ->
     array' <> array).
Proof.
  unfold XSegmentedIndex at 1. unfold GetState.
  destruct ctx as [st |]; [| done].
  destruct (Options st) as [err | st0 offs lc] eqn:Hopt; [done |].
  intros [= <- <- <-]. cbn [shared heap].
  split_and!; try done.
  - by apply lookup_ge_None_2.
  - intros b s Hb. rewrite lookup_app_l; [done |]. by apply lookup_lt_Some in Hb.
  - exists st, st0, offs, lc. split_and!; try done. by apply list_lookup_middle.
  - intros qs ctx' array'.
    match goal with |- context [serve_all qs ?x] => set (p1 := x) end.
    destruct (serve_all_keeps qs p1) as (_ & Hlen & _).
    subst p1. cbn [heap] in Hlen. rewrite List.length_app in Hlen. cbn in Hlen.
    unfold XSegmentedIndex, GetState.
    destruct ctx' as [st' |]; [| done].
    destruct (Options st'); [done |]. cbn [fst]. intros [= <-]. lia.
Qed.

Lemma private_index_is_fresh_witness :
  heap New !! 0%nat = None /\
  ([] : list event) = [] /\
  shared (mkProcess (shared New) [NewSegmentedIndex 0 3 [2; 1]]) = shared New /\
  (forall b s, heap New !! b = Some s ->
     heap (mkProcess (shared New) [NewSegmentedIndex 0 3 [2; 1]]) !! b = Some s) /\
  (exists st st0 offs lc,
     a_state = Some st /\ Options st = StripedOffsets st0 offs lc /\
     heap (mkProcess (shared New) [NewSegmentedIndex 0 3 [2; 1]]) !! 0%nat =
       Some (NewSegmentedIndex st0 lc offs)) /\
  (forall qs ctx' array',
     fst (fst (XSegmentedIndex ctx'
                 (serve_all qs (mkProcess (shared New) [NewSegmentedIndex 0 3 [2; 1]])))) =
       Ret array' ->
     array' <> 0%nat).
Proof.
  apply (private_index_is_fresh a_state New 0%nat []
           (mkProcess (shared New) [NewSegmentedIndex 0 3 [2; 1]])).
  reflexivity.
Defined.

(** X15. In a process started by [New], whatever was served before and
    whatever is served after: an instance returned by [XSegmentedIndex]
    is never held by the registry under any name. *)
Theorem private_index_is_never_shared (before after : list request)
    (ctx : Context) (array : ptr) (name : string) :
  fst (fst (XSegmentedIndex ctx (serve_all before New))) = Ret array ->
  data (shared (serve_all after (snd (XSegmentedIndex ctx (serve_all before New)))))
    !! name <> Some array.
Proof.
  destruct (serve_all_keeps before New) as (_ & _ & Hok & _).
  specialize (Hok New_registry_ok).
  set (p := serve_all before New) in *.
  unfold XSegmentedIndex, GetState.
  destruct ctx as [st |]; [| done].
  destruct (Options st) as [err | st0 offs lc]; [done |].
  cbn [fst snd]. intros [= <-].
  match goal with |- context [serve_all after ?x] => set (p1 := x) end.
  destruct (serve_all_keeps after p1) as (_ & _ & _ & _ & Hfree).
  apply Hfree; subst p1; cbn [shared heap].
  - intros n b Hn. cbn [shared data heap] in *.
    rewrite List.length_app. specialize (Hok n b Hn). lia.
  - rewrite List.length_app. cbn. lia.
  - intros n Hn. specialize (Hok n _ Hn). lia.
Qed.

Lemma private_index_is_never_shared_witness :
  data (shared (serve_all [Registry (DoShared a_state "items")]
                  (snd (XSegmentedIndex a_state
                          (serve_all [Registry (DoShared a_state "users")] New)))))
    !! "items" <> Some 1%nat.
Proof.
  apply (private_index_is_never_shared
           [Registry (DoShared a_state "users")]
           [Registry (DoShared a_state "items")] a_state 1%nat "items").
  vm_compute. reflexivity.
Defined.

(** X16. An instance is changed by nothing but the navigation calls
    made through its own pointer: whatever else is served (calls on
    other instances, constructions, registry lookups), it keeps its
    parameters and its cursor. *)
Theorem instance_isolation (qs : list request) (p : process) (array : ptr)
    (s : SegmentedIndex) :
  heap p !! array = Some s ->
  Forall (fun q => forall c, q <> Registry (DoCall array c)) qs ->
  heap (serve_all qs p) !! array = Some s.
Proof.
  unfold serve_all. intros Hcell Hqs. revert p Hcell.
  induction Hqs as [| q qs Hq _ IH]; intros p Hcell; [done |].
  cbn [foldl]. apply IH.
  destruct (serve_cell q p array s Hcell) as [(c & -> & _) | [_ Hnext]]; [| done].
  by destruct (Hq c).
Qed.

Lemma instance_isolation_witness :
  heap (serve_all [Registry (DoCall 1%nat (CallGoTo 5)); Private a_state;
                   Registry (DoShared a_state "users")]
          (mkProcess (shared New)
             [NewSegmentedIndex 0 3 [2; 1]; NewSegmentedIndex 1 3 [3]]))
    !! 0%nat = Some (NewSegmentedIndex 0 3 [2; 1]).
Proof.
  apply (instance_isolation _ _ 0%nat (NewSegmentedIndex 0 3 [2; 1])).
  - reflexivity.
  - repeat constructor; by intros c.
Defined.

(** X17. While requests of any kind are served, among them calls of
    [Next] on one instance by any number of callers but no [Prev] or
    [GoTo] on it: the calls of [Next] on that instance all return, and
    the scaled values they return are [scaled + 1, scaled + 2, ...] in
    the order the calls are served, without gap or repetition. *)
Theorem shared_Next_is_a_counter (qs : list request) :
  forall (p : process) (array : ptr) (s : SegmentedIndex),
    heap p !! array = Some s ->
    offsets s <> [] ->
    cursor_in_range s ->
    0 <= scaled s ->
    Forall (only_Next_on array) qs ->
    scaled s + Z.of_nat (length (handed_out array qs p)) <= Int64.max_int ->
    Forall2 (fun r k => exists u, r = Ret {| Scaled := k; Unscaled := u |})
      (handed_out array qs p)
      (seqZ (scaled s + 1) (Z.of_nat (length (handed_out array qs p)))).
Proof.
  induction qs as [| q qs IH]; intros p array s Hcell Hne Hs H0 Honly Hmax.
  - cbn. rewrite seqZ_nil by lia. constructor.
  - apply Forall_cons in Honly as [Hq Hqs].
    destruct (serve_cell q p array s Hcell)
      as [(c & -> & Hret & Hnext) | [Hother Hnext]].
    + assert (c = CallNext) as -> by by apply Hq.
      cbn [handed_out] in Hmax |- *.
      destruct (decide (array = array)) as [_ | Hbad]; [| done].
      cbn [length] in Hmax |- *.
      cbn [run_call] in Hret, Hnext.
      destruct (Next_returns s Hne ltac:(lia)) as (r1 & s1 & Hrun).
      pose proof (Next_ranged s Hs) as Hs1.
      pose proof (Next_keeps s) as (_ & _ & Ho1).
      assert (Scaled r1 = scaled s + 1 /\ scaled s1 = scaled s + 1) as [Hr1 Hk1].
      { destruct (decide (scaled s = 0)) as [Hz | Hz].
        - rewrite Next_first in Hrun by done. injection Hrun as <- <-.
          cbn [Scaled scaled]. split; Int64Facts.wrap_lia.
        - rewrite Next_later in Hrun by (done || lia). injection Hrun as <- <-.
          cbn [Scaled scaled]. split; Int64Facts.wrap_lia. }
      rewrite Hrun in Hret, Hnext, Hs1, Ho1. cbn [fst snd] in Hret, Hnext, Hs1, Ho1.
      rewrite Hret. rewrite seqZ_cons by lia. constructor.
      * exists (Unscaled r1). destruct r1 as [k u]. cbn in Hr1 |- *. by rewrite Hr1.
      * replace (Z.pred (Z.of_nat (S (length (handed_out array qs
                   (serve (Registry (DoCall array CallNext)) p))))))
          with (Z.of_nat (length (handed_out array qs
                   (serve (Registry (DoCall array CallNext)) p)))) by lia.
        replace (Z.succ (scaled s + 1)) with (scaled s1 + 1) by lia.
        apply (IH _ array s1); [done | congruence | done | lia | done | lia].
    + assert (handed_out array (q :: qs) p = handed_out array qs (serve q p))
        as Heq.
      { cbn [handed_out].
        destruct q as [[ctx name | name | state name | b [| |v]] | ctx]; try done.
        destruct (decide (b = array)) as [-> | _]; [| done].
        by destruct (Hother CallNext). }
      rewrite Heq in Hmax |- *.
      by apply (IH _ array s).
Qed.

Lemma shared_Next_is_a_counter_witness :
  Forall2 (fun r k => exists u, r = Ret {| Scaled := k; Unscaled := u |})
    (handed_out 0%nat
       [Registry (DoCall 0%nat CallNext); Private a_state;
        Registry (DoCall 1%nat CallNext); Registry (DoShared None "users");
        Registry (DoCall 0%nat CallNext)]
       (snd (history racing_callers New)))
    (seqZ (scaled (NewSegmentedIndex 0 3 [2; 1]) + 1)
       (Z.of_nat (length (handed_out 0%nat
          [Registry (DoCall 0%nat CallNext); Private a_state;
           Registry (DoCall 1%nat CallNext); Registry (DoShared None "users");
           Registry (DoCall 0%nat CallNext)]
          (snd (history racing_callers New)))))).
Proof.
  apply (shared_Next_is_a_counter _ _ 0%nat (NewSegmentedIndex 0 3 [2; 1])).
  - vm_compute. reflexivity.
  - discriminate.
  - split; vm_compute; split; discriminate.
  - vm_compute. discriminate.
  - repeat constructor; intros c [=]; by subst.
  - vm_compute. discriminate.
Defined.
